(** * Response pipeline of the AI VTuber: cache, sanitizer, generation client,
      rate-limit gate and audio sink

    Shallow embedding of [src/main.py] (classes [AudioPlayer], [ResponseCache]
    and [AIVtuber]) and of the two notification methods of [src/tracking.py].

    - A Python [str] is a sequence of Unicode code points: [list N].
    - The three regular expressions of [_clean_response] and the one of
      [re.split] are written out as scanners over code points.
    - The [dict] of [ResponseCache] keeps insertion order: an association
      list with unique keys.
    - [asyncio] tasks and the audio thread are step relations over explicit
      program counters; [time.time()] is a rational clock, in seconds,
      advanced by the environment. *)

From Stdlib Require Import List NArith ZArith QArith Lqa String Ascii Lia Bool.
From stdpp Require Import base list gmap sets relations.
Import ListNotations.

Local Open Scope nat_scope.

(** ** Strings as sequences of code points *)

Module Text.

Definition str := list N.

Definition of_string (s : string) : str :=
  map N_of_ascii (list_ascii_of_string s).

Definition space : N := 32%N.
Definition star : N := 42%N.
Definition colon : N := 58%N.

(** [str.isspace] for one code point, which is also the class [\s] of [re]
    on [str] patterns: the ASCII controls 9..13 and 28..31, the blank, and
    the Unicode separators. *)
Definition is_space (c : N) : bool :=
  ((9 <=? c) && (c <=? 13) || (28 <=? c) && (c <=? 32)
   || (c =? 133) || (c =? 160) || (c =? 5760)
   || (8192 <=? c) && (c <=? 8202)
   || (c =? 8232) || (c =? 8233) || (c =? 8239) || (c =? 8287)
   || (c =? 12288))%N.

(** The class [[.!?]]. *)
Definition is_terminator (c : N) : bool :=
  ((c =? 46) || (c =? 33) || (c =? 63))%N.

(** The class [[\U00010000-\U0010FFFF]]. *)
Definition is_astral (c : N) : bool :=
  ((65536 <=? c) && (c <=? 1114111))%N.

Definition count_star (t : str) : nat :=
  length (List.filter (N.eqb star) t).

(** Length of the longest prefix whose code points satisfy [p]. *)
Fixpoint span_len (p : N -> bool) (t : str) : nat :=
  match t with
  | c :: r => if p c then S (span_len p r) else 0
  | [] => 0
  end.

(** Position of the first code point satisfying [p]. *)
Fixpoint index_of (p : N -> bool) (t : str) : option nat :=
  match t with
  | [] => None
  | c :: r => if p c then Some 0 else option_map S (index_of p r)
  end.

(** [str.lstrip()], [str.rstrip()] and [str.strip()] without argument. *)
Fixpoint lstrip (t : str) : str :=
  match t with
  | c :: r => if is_space c then lstrip r else t
  | [] => []
  end.

Fixpoint rstrip (t : str) : str :=
  match t with
  | [] => []
  | c :: r =>
      match rstrip r with
      | [] => if is_space c then [] else [c]
      | r' => c :: r'
      end
  end.

Definition strip (t : str) : str := rstrip (lstrip t).

(** [re.sub(pattern, '', t)] for a pattern that never matches the empty
    string. [match_at u] is the length of the match of the pattern at the
    start of [u], when there is one. The scan goes left to right; [skip]
    counts the code points of the current match still to be deleted. *)
Fixpoint sub_delete (match_at : str -> option nat) (skip : nat) (t : str)
  : str :=
  match t with
  | [] => []
  | c :: r =>
      match skip with
      | S k => sub_delete match_at k r
      | O =>
          match match_at t with
          | Some (S k) => sub_delete match_at k r
          | _ => c :: sub_delete match_at 0 r
          end
      end
  end.

(** Match of [\*[^*]*\*] at the start of [t]: an asterisk, then everything
    up to and including the next asterisk. *)
Definition star_span (t : str) : option nat :=
  match t with
  | c :: r =>
      if (c =? star)%N
      then option_map (fun j => j + 2) (index_of (N.eqb star) r)
      else None
  | [] => None
  end.

(** Match of [[\U00010000-\U0010FFFF]] at the start of [t]. *)
Definition astral_span (t : str) : option nat :=
  match t with
  | c :: _ => if is_astral c then Some 1 else None
  | [] => None
  end.

(** Match of [^[^:]+:\s+] at the start of the text: a non-empty run without
    colon, the colon, a non-empty run of white space. The run [[^:]+] is
    greedy and cannot step over a colon, so the colon is the first one. *)
Definition prefix_span (t : str) : option nat :=
  let n1 := span_len (fun c => negb (c =? colon)%N) t in
  match n1, drop n1 t with
  | S _, c :: r =>
      match span_len is_space r with
      | S n2 => Some (n1 + 1 + S n2)
      | O => None
      end
  | _, _ => None
  end.

(** [re.sub(r'^[^:]+:\s+', '', t)]: without [re.MULTILINE] the anchor holds
    at position 0 only, so at most one match is deleted. *)
Definition strip_prefix (t : str) : str :=
  match prefix_span t with
  | Some n => drop n t
  | None => t
  end.

(** Match of [(?<=[.!?])\s+] at the start of [t], [prev] being the code
    point before it. *)
Definition sep_span (prev : option N) (t : str) : option nat :=
  match prev with
  | Some p =>
      if is_terminator p
      then match span_len is_space t with
           | S n => Some (S n)
           | O => None
           end
      else None
  | None => None
  end.

(** [re.split(r'(?<=[.!?])\s+', t)]: [piece] is the text since the last
    separator, [skip] the rest of the separator being consumed. *)
Fixpoint re_split (prev : option N) (skip : nat) (piece : str) (t : str)
  : list str :=
  match t with
  | [] => [piece]
  | c :: r =>
      match skip with
      | S k => re_split (Some c) k piece r
      | O =>
          match sep_span prev t with
          | Some (S k) => piece :: re_split (Some c) k [] r
          | _ => re_split (Some c) 0 (piece ++ [c]) r
          end
      end
  end.

Definition split_sentences (t : str) : list str := re_split None 0 [] t.

End Text.

Export Text.

(** ** TextSanitizer: [AIVtuber._clean_response] *)

Module Sanitizer.

(** The loop over [sentences]: [result] grows by whole sentences, each
    followed by a blank, and the loop breaks at the first one that does not
    fit. *)
Fixpoint accumulate (max_response_length : Z) (result : str)
  (sentences : list str) : str :=
  match sentences with
  | [] => result
  | sentence :: rest =>
      if (Z.of_nat (length (result ++ sentence)) <=? max_response_length)%Z
      then accumulate max_response_length (result ++ sentence ++ [space]) rest
      else result
  end.

Definition clean_response (max_response_length : Z) (text : str) : str :=
  let text := sub_delete astral_span 0 text in
  let text := sub_delete star_span 0 text in
  let text := strip_prefix text in
  let text := strip text in
  if (max_response_length <? Z.of_nat (length text))%Z
  then strip (accumulate max_response_length [] (split_sentences text))
  else text.

End Sanitizer.

Export Sanitizer.

(** ** Exceptions and results *)

Inductive exn :=
| ZeroDivisionError
| StopIteration
| KeyError
| TimeoutException (e : str)     (* httpx.ReadTimeout, httpx.ConnectTimeout *)
| TransportError (e : str)       (* any other exception of the request *)
| JSONDecodeError                (* response.json() *)
| LookupError                    (* response_data["choices"][0]... *)
| ApiException (status_code : Z) (text : str)   (* raise Exception(error_msg) *)
| CancelledError.                (* a BaseException: no [except Exception] catches it *)

Inductive res (A : Type) :=
| Ok (a : A)
| Raise (e : exn).
Arguments Ok {A} a.
Arguments Raise {A} e.

Definition bind {A B} (m : res A) (k : A -> res B) : res B :=
  match m with
  | Ok a => k a
  | Raise e => Raise e
  end.

Notation "'let!' x ':=' m 'in' k" := (bind m (fun x => k))
  (at level 10, x name, m at level 100, k at level 200).

(** ** ResponseCache *)

Module Cache.

(** A [dict] from [str] to [str], in insertion order. *)
Definition dict := list (str * str).

Definition key_eqb (a b : str) : bool := bool_decide (a = b).

(** [d[k] = v]: an existing key keeps its place, a new key goes last. *)
Fixpoint dict_set (k v : str) (d : dict) : dict :=
  match d with
  | [] => [(k, v)]
  | (k', v') :: r =>
      if key_eqb k' k then (k, v) :: r else (k', v') :: dict_set k v r
  end.

(** [next(iter(d))]. *)
Definition dict_first (d : dict) : res str :=
  match d with
  | [] => Raise StopIteration
  | (k, _) :: _ => Ok k
  end.

(** [d.pop(k)]. *)
Fixpoint dict_pop (k : str) (d : dict) : res dict :=
  match d with
  | [] => Raise KeyError
  | (k', v') :: r =>
      if key_eqb k' k then Ok r
      else let! r' := dict_pop k r in Ok ((k', v') :: r')
  end.

(** [str.split()] without argument: the maximal runs without white space. *)
Fixpoint split_ws (word : str) (t : str) : list str :=
  match t with
  | [] => match word with [] => [] | _ => [word] end
  | c :: r =>
      if is_space c
      then match word with
           | [] => split_ws [] r
           | _ => word :: split_ws [] r
           end
      else split_ws (word ++ [c]) r
  end.

(** [a / b] on [int]: [ZeroDivisionError] for a zero divisor; the [float]
    quotient is kept as the exact rational. *)
Definition true_div (a b : nat) : res Q :=
  match b with
  | O => Raise ZeroDivisionError
  | S _ => Ok (Z.of_nat a # Pos.of_nat b)
  end.

(** [a > b]. *)
Definition Qgtb (a b : Q) : bool := negb (Qle_bool a b).

Record ResponseCache := {
  cache : dict;
  cache_size : Z;
  similarity_threshold : Q
}.

(** [ResponseCache()]: the defaults of [__init__]. *)
Definition new_cache : ResponseCache :=
  {| cache := []; cache_size := 100; similarity_threshold := 8 # 10 |}.

Section Similarity.

(** [str.lower], the case mapping of the Python runtime. *)
Variable lower : str -> str.

Definition words (s : str) : gset str := list_to_set (split_ws [] (lower s)).

Definition compute_similarity (s1 s2 : str) : res Q :=
  let words1 := words s1 in
  let words2 := words s2 in
  let intersection := size (words1 ∩ words2) in
  let union := size (words1 ∪ words2) in
  if 0 <? union then true_div intersection union else Ok 0%Q.

(** The loop of [get] over [self.cache.items()]. *)
Fixpoint get_items (threshold : Q) (query : str) (items : dict)
  : res (option str) :=
  match items with
  | [] => Ok None
  | (cached_query, response) :: rest =>
      let! sim := compute_similarity query cached_query in
      if Qgtb sim threshold then Ok (Some response)
      else get_items threshold query rest
  end.

Definition get (rc : ResponseCache) (query : str) : res (option str) :=
  get_items (similarity_threshold rc) query (cache rc).

End Similarity.

Definition with_cache (rc : ResponseCache) (d : dict) : ResponseCache :=
  {| cache := d; cache_size := cache_size rc;
     similarity_threshold := similarity_threshold rc |}.

Definition add (rc : ResponseCache) (query response : str)
  : res ResponseCache :=
  let! d := (if (cache_size rc <=? Z.of_nat (length (cache rc)))%Z
             then let! k := dict_first (cache rc) in dict_pop k (cache rc)
             else Ok (cache rc)) in
  Ok (with_cache rc (dict_set query response d)).

(** A sequence of calls of [add]; a call that raises leaves the cache as it
    was. *)
Fixpoint add_all (rc : ResponseCache) (ops : list (str * str))
  : ResponseCache :=
  match ops with
  | [] => rc
  | (q, r) :: rest =>
      match add rc q r with
      | Ok rc' => add_all rc' rest
      | Raise _ => add_all rc rest
      end
  end.

(** [str.lower] on the ASCII letters, other code points unchanged. *)
Definition ascii_lower (s : str) : str :=
  map (fun c => if ((65 <=? c) && (c <=? 90))%N then (c + 32)%N else c) s.

End Cache.

Export Cache.

(** ** Notifications: [TrackingSystem.track_workflow], [track_error] *)

Module Tracking.

Inductive workflow_details :=
| StartingCall (user_message : str)
| AttemptStarted (attempt max_retries : nat) (timeout : Z)
| GotResponse
| ConvertingToSpeech (text : str).

Inductive error_msg :=
| ApiError (status_code : Z) (text : str)
| TimeoutOnAttempt (attempt : nat) (e : str)
| ApiCallFailed (max_retries : nat) (e : exn)
| TtsError (e : str)
| SubtitleError (e : str).

(** What a coroutine does to the outside, in order: an entry put on the
    workflow queue or on the error queue (both unbounded, so [put] neither
    blocks nor raises), or a suspension in [asyncio.sleep]. *)
Inductive effect :=
| Workflow (details : workflow_details)
| Error (msg : error_msg)
| Sleep (seconds : Z).

Definition is_error (e : effect) : bool :=
  match e with
  | Error _ => true
  | _ => false
  end.

Definition errors (log : list effect) : list effect :=
  List.filter is_error log.

End Tracking.

Export Tracking.

(** ** GenerationClient: [AIVtuber._call_deepseek_api] *)

Module Generation.

(** The body of a 200 response, as far as the code reads it:
    [response.json()] may raise, and so may the path
    [["choices"][0]["message"]["content"]]. *)
Inductive body :=
| NotJson
| NoContent
| Content (content : str).

(** What [await client.post(...)] does on one attempt. *)
Inductive post_result :=
| Response (status_code : Z) (text : str) (json : body)
| TimedOut (e : str)
| Failed (e : str)
| Cancelled.

(** How a coroutine ends: [return v] (falling off the end returns [None]) or
    an exception that leaves it. *)
Inductive completion :=
| Returned (v : option str)
| Raised (e : exn).

Definition apology : str :=
  of_string "I apologize, but I'm having trouble connecting to my thoughts right now. Perhaps we could try again in a moment?".

(** The loop [for attempt in range(max_retries)], from iteration [attempt]
    on with [remaining] iterations left; [post attempt] is the outcome of
    the request of that iteration. An exception that the inner handler does
    not catch, or raises, ends the loop with [Raised]. *)
Fixpoint retry_loop (max_response_length : Z) (post : nat -> post_result)
  (max_retries remaining attempt : nat) : list effect * completion :=
  match remaining with
  | O => ([], Returned None)
  | S remaining' =>
      let timeout := (15 * (Z.of_nat attempt + 1))%Z in
      let started := Workflow (AttemptStarted (attempt + 1) max_retries timeout) in
      match post attempt with
      | Response status_code text json =>
          if (status_code =? 200)%Z
          then
            match json with
            | NotJson => ([started], Raised JSONDecodeError)
            | NoContent => ([started; Workflow GotResponse], Raised LookupError)
            | Content c =>
                ([started; Workflow GotResponse],
                 Returned (Some (clean_response max_response_length c)))
            end
          else
            if attempt =? max_retries - 1
            then ([started; Error (ApiError status_code text)],
                  Raised (ApiException status_code text))
            else
              let (log, r) :=
                retry_loop max_response_length post max_retries remaining'
                  (S attempt) in
              (started :: Error (ApiError status_code text) :: log, r)
      | TimedOut e =>
          if attempt =? max_retries - 1
          then ([started; Error (TimeoutOnAttempt (attempt + 1) e)],
                Raised (TimeoutException e))
          else
            let (log, r) :=
              retry_loop max_response_length post max_retries remaining'
                (S attempt) in
            (started :: Error (TimeoutOnAttempt (attempt + 1) e)
               :: Sleep (1 * (Z.of_nat attempt + 1)) :: log, r)
      | Failed e => ([started], Raised (TransportError e))
      | Cancelled => ([started], Raised CancelledError)
      end
  end.

(** [except Exception]: every exception of the model but [CancelledError]. *)
Definition is_Exception (e : exn) : bool :=
  match e with
  | CancelledError => false
  | _ => true
  end.

Definition max_retries : nat := 3.

(** [_call_deepseek_api]; the configuration is complete, so building the
    headers, the prompt and the payload raises nothing. *)
Definition call_deepseek_api (max_response_length : Z)
  (post : nat -> post_result) (user_message : str)
  : list effect * completion :=
  let (log, r) :=
    retry_loop max_response_length post max_retries max_retries 0 in
  let log := Workflow (StartingCall (take 50 user_message)) :: log in
  match r with
  | Returned v => (log, Returned v)
  | Raised e =>
      if is_Exception e
      then (log ++ [Error (ApiCallFailed max_retries e)],
            Returned (Some apology))
      else (log, Raised e)
  end.

End Generation.

Export Generation.

(** ** AudioSink: [AudioPlayer] *)

Module Audio.

(** A buffer of PCM samples. *)
Definition audio := list Z.

(** Program counter of [_audio_player_loop], the only consumer. *)
Inductive consumer_pc :=
| AtLoopTest                (* about to test [while not self.should_stop] *)
| InGet                     (* in [self.audio_queue.get(timeout=1)] *)
| Playing (a : audio)       (* in [sd.play] / [sd.wait] *)
| Exited.                   (* the loop is left, the thread is dead *)

(** Program counter of one call of [stop]. *)
Inductive stop_pc :=
| NotCalled                 (* before [self.should_stop = True] *)
| AtPut                     (* in [self.audio_queue.put(None)] *)
| AtJoin                    (* at [is_alive()] / [join(timeout=1)] *)
| StopReturned.

(** [audio_queue] holds buffers and the [None] of [stop]. *)
Record player := {
  audio_queue : list (option audio);
  maxsize : Z;
  is_speaking : bool;
  should_stop : bool;
  consumer : consumer_pc;
  stopper : stop_pc
}.

(** [AudioPlayer(max_queue_size)], its thread started. *)
Definition new_player (max_queue_size : Z) : player :=
  {| audio_queue := []; maxsize := max_queue_size; is_speaking := false;
     should_stop := false; consumer := AtLoopTest; stopper := NotCalled |}.

(** [queue.Queue.full()]: a [maxsize] of zero or less is no bound. *)
Definition full (p : player) : bool :=
  ((0 <? maxsize p) && (maxsize p <=? Z.of_nat (length (audio_queue p))))%Z.

Definition with_queue (q : list (option audio)) (p : player) : player :=
  {| audio_queue := q; maxsize := maxsize p; is_speaking := is_speaking p;
     should_stop := should_stop p; consumer := consumer p;
     stopper := stopper p |}.

Definition with_consumer (c : consumer_pc) (speaking : bool) (p : player)
  : player :=
  {| audio_queue := audio_queue p; maxsize := maxsize p;
     is_speaking := speaking; should_stop := should_stop p; consumer := c;
     stopper := stopper p |}.

Definition with_stopper (s : stop_pc) (flag : bool) (p : player) : player :=
  {| audio_queue := audio_queue p; maxsize := maxsize p;
     is_speaking := is_speaking p; should_stop := flag;
     consumer := consumer p; stopper := s |}.

(** [play]: [put(audio_data, block=False)], and [queue.Full] is caught: the
    buffer is dropped. *)
Definition play (a : audio) (p : player) : player :=
  if full p then p else with_queue (audio_queue p ++ [Some a]) p.

(** Steps of the consumer thread and of the thread that calls [stop]. A
    blocking [put] on a full queue has no step. *)
Inductive thread_step : player -> player -> Prop :=
| consumer_continue p :
    consumer p = AtLoopTest -> should_stop p = false ->
    thread_step p (with_consumer InGet (is_speaking p) p)
| consumer_exit p :
    consumer p = AtLoopTest -> should_stop p = true ->
    thread_step p (with_consumer Exited (is_speaking p) p)
| consumer_get_buffer p a q :
    consumer p = InGet -> audio_queue p = Some a :: q ->
    thread_step p (with_consumer (Playing a) true (with_queue q p))
| consumer_get_none p q :
    consumer p = InGet -> audio_queue p = None :: q ->
    thread_step p (with_consumer AtLoopTest (is_speaking p) (with_queue q p))
| consumer_get_empty p :
    consumer p = InGet -> audio_queue p = [] ->
    thread_step p (with_consumer AtLoopTest (is_speaking p) p)
| consumer_played p a :
    consumer p = Playing a ->
    thread_step p (with_consumer AtLoopTest false p)
| stop_set_flag p :
    stopper p = NotCalled ->
    thread_step p (with_stopper AtPut true p)
| stop_put p :
    stopper p = AtPut -> full p = false ->
    thread_step p
      (with_stopper AtJoin (should_stop p)
         (with_queue (audio_queue p ++ [None]) p))
| stop_join p :
    stopper p = AtJoin ->
    thread_step p (with_stopper StopReturned (should_stop p) p).

(** The threads above, and any caller of [play]. *)
Inductive step : player -> player -> Prop :=
| step_thread p p' : thread_step p p' -> step p p'
| step_play p a : step p (play a p).

End Audio.

(** ** PipelineOrchestrator: [AIVtuber.process_chat] *)

Module Pipeline.

Import Audio.

(** Where a task running [process_message] is suspended. *)
Inductive pc :=
| Queued                        (* at [async with self.processing_lock] *)
| RateLimitWait (until : Q)     (* in [asyncio.sleep], the lock held *)
| Generating                    (* in [_call_deepseek_api], the lock held *)
| Synthesizing (response : str) (* in [run_in_executor], the lock held *)
| Finished.

Record task := {
  author : str;
  message : str;
  at_pc : pc
}.

Definition inside (t : task) : bool :=
  match at_pc t with
  | RateLimitWait _ | Generating | Synthesizing _ => true
  | Queued | Finished => false
  end.

(** Timestamps a run leaves behind: the lock taken (this is [current_time]),
    [_call_deepseek_api] called, [last_response_time] written. *)
Inductive mark := Entered | Called | Completed.

(** What the speech engine gives for one text. *)
Inductive tts_result :=
| Segment (a : option audio)
| TtsFailed (e : str).

(** What [_write_subtitle] does to [output.txt]. *)
Inductive write_result :=
| Written
| WriteFailed (e : str) (content : str).

Record vtuber := {
  clock : Q;                        (* [time.time()], in seconds *)
  processing_lock : bool;
  last_response_time : Q;
  rate_limit_delay : Q;
  max_response_length : Z;
  response_cache : ResponseCache;
  subtitle : str;
  audio_player : player;
  log : list effect;
  history : list (nat * mark * Q);
  tasks : list task
}.

(** [AIVtuber(config, ...)] at time [now]. *)
Definition new_vtuber (now : Q) (max_len : Z) : vtuber :=
  {| clock := now; processing_lock := false; last_response_time := 0;
     rate_limit_delay := 1; max_response_length := max_len;
     response_cache := new_cache; subtitle := [];
     audio_player := new_player 10; log := []; history := [];
     tasks := [] |}.

Definition with_clock (c : Q) (w : vtuber) : vtuber :=
  {| clock := c; processing_lock := processing_lock w;
     last_response_time := last_response_time w;
     rate_limit_delay := rate_limit_delay w;
     max_response_length := max_response_length w;
     response_cache := response_cache w; subtitle := subtitle w;
     audio_player := audio_player w; log := log w; history := history w;
     tasks := tasks w |}.

Definition with_lock (b : bool) (w : vtuber) : vtuber :=
  {| clock := clock w; processing_lock := b;
     last_response_time := last_response_time w;
     rate_limit_delay := rate_limit_delay w;
     max_response_length := max_response_length w;
     response_cache := response_cache w; subtitle := subtitle w;
     audio_player := audio_player w; log := log w; history := history w;
     tasks := tasks w |}.

Definition with_last (t : Q) (w : vtuber) : vtuber :=
  {| clock := clock w; processing_lock := processing_lock w;
     last_response_time := t;
     rate_limit_delay := rate_limit_delay w;
     max_response_length := max_response_length w;
     response_cache := response_cache w; subtitle := subtitle w;
     audio_player := audio_player w; log := log w; history := history w;
     tasks := tasks w |}.

Definition with_subtitle (s : str) (w : vtuber) : vtuber :=
  {| clock := clock w; processing_lock := processing_lock w;
     last_response_time := last_response_time w;
     rate_limit_delay := rate_limit_delay w;
     max_response_length := max_response_length w;
     response_cache := response_cache w; subtitle := s;
     audio_player := audio_player w; log := log w; history := history w;
     tasks := tasks w |}.

Definition with_player (p : player) (w : vtuber) : vtuber :=
  {| clock := clock w; processing_lock := processing_lock w;
     last_response_time := last_response_time w;
     rate_limit_delay := rate_limit_delay w;
     max_response_length := max_response_length w;
     response_cache := response_cache w; subtitle := subtitle w;
     audio_player := p; log := log w; history := history w;
     tasks := tasks w |}.

Definition with_log (l : list effect) (w : vtuber) : vtuber :=
  {| clock := clock w; processing_lock := processing_lock w;
     last_response_time := last_response_time w;
     rate_limit_delay := rate_limit_delay w;
     max_response_length := max_response_length w;
     response_cache := response_cache w; subtitle := subtitle w;
     audio_player := audio_player w; log := log w ++ l;
     history := history w; tasks := tasks w |}.

Definition with_mark (i : nat) (m : mark) (w : vtuber) : vtuber :=
  {| clock := clock w; processing_lock := processing_lock w;
     last_response_time := last_response_time w;
     rate_limit_delay := rate_limit_delay w;
     max_response_length := max_response_length w;
     response_cache := response_cache w; subtitle := subtitle w;
     audio_player := audio_player w; log := log w;
     history := history w ++ [(i, m, clock w)]; tasks := tasks w |}.

Definition with_tasks (ts : list task) (w : vtuber) : vtuber :=
  {| clock := clock w; processing_lock := processing_lock w;
     last_response_time := last_response_time w;
     rate_limit_delay := rate_limit_delay w;
     max_response_length := max_response_length w;
     response_cache := response_cache w; subtitle := subtitle w;
     audio_player := audio_player w; log := log w; history := history w;
     tasks := ts |}.

Definition move (i : nat) (t : task) (to : pc) (w : vtuber) : vtuber :=
  with_tasks
    (<[i := {| author := author t; message := message t; at_pc := to |}]>
       (tasks w)) w.

(** [asyncio.create_task(process_message(chat_item))]. *)
Definition spawn (chat_author chat_message : str) (w : vtuber) : vtuber :=
  with_tasks
    (tasks w ++
     [{| author := chat_author; message := chat_message; at_pc := Queued |}])
    w.

(** [a < b] on timestamps. *)
Definition Qltb (a b : Q) : bool := negb (Qle_bool b a).

(** The call of [_call_deepseek_api] begins. *)
Definition call (i : nat) (t : task) (w : vtuber) : vtuber :=
  move i t Generating (with_mark i Called w).

(** The lock is taken and the elapsed time tested; nothing suspends the task
    between the two. *)
Definition enter (i : nat) (t : task) (w : vtuber) : vtuber :=
  let w := with_mark i Entered (with_lock true w) in
  let current_time := clock w in
  if Qltb (current_time - last_response_time w) (rate_limit_delay w)
  then
    move i t
      (RateLimitWait
         (current_time +
          (rate_limit_delay w - (current_time - last_response_time w))))
      w
  else call i t w.

(** [self.last_response_time = time.time()] and the end of the
    [async with] block. *)
Definition finish (i : nat) (t : task) (w : vtuber) : vtuber :=
  move i t Finished
    (with_lock false (with_last (clock w) (with_mark i Completed w))).

(** An exception leaves the [async with] block: the lock is released and
    [last_response_time] is not written. *)
Definition abandon (i : nat) (t : task) (w : vtuber) : vtuber :=
  move i t Finished (with_lock false w).

Definition write_subtitle (text : str) (wr : write_result) (w : vtuber)
  : vtuber :=
  match wr with
  | Written => with_subtitle text w
  | WriteFailed e content =>
      with_log [Error (SubtitleError e)] (with_subtitle content w)
  end.

(** [_call_deepseek_api] returns, [post] being what its requests met. *)
Definition generated (i : nat) (t : task) (post : nat -> post_result)
  (wr : write_result) (w : vtuber) : vtuber :=
  let (l, r) := call_deepseek_api (max_response_length w) post (message t) in
  let w := with_log l w in
  match r with
  | Returned (Some (c :: response)) =>
      let w := write_subtitle (c :: response) wr w in
      let w := with_log [Workflow (ConvertingToSpeech (take 50 (c :: response)))] w in
      move i t (Synthesizing (c :: response)) w
  | Returned (Some []) | Returned None => finish i t w
  | Raised e => abandon i t w
  end.

(** [_text_to_speech_async] resumes after [run_in_executor]. *)
Definition synthesized (i : nat) (t : task) (tts : tts_result) (w : vtuber)
  : vtuber :=
  let w :=
    match tts with
    | Segment (Some a) => with_player (play a (audio_player w)) w
    | Segment None => w
    | TtsFailed e => with_log [Error (TtsError e)] w
    end in
  finish i t w.

Inductive step : vtuber -> vtuber -> Prop :=
| step_tick w dt :
    (0 <= dt)%Q ->
    step w (with_clock (clock w + dt) w)
| step_spawn w chat_author chat_message :
    step w (spawn chat_author chat_message w)
| step_enter w i t :
    tasks w !! i = Some t -> at_pc t = Queued ->
    processing_lock w = false ->
    step w (enter i t w)
| step_wake w i t until :
    tasks w !! i = Some t -> at_pc t = RateLimitWait until ->
    (until <= clock w)%Q ->
    step w (call i t w)
| step_generated w i t post wr :
    tasks w !! i = Some t -> at_pc t = Generating ->
    step w (generated i t post wr w)
| step_synthesized w i t response tts :
    tasks w !! i = Some t -> at_pc t = Synthesizing response ->
    step w (synthesized i t tts w)
| step_audio w p' :
    thread_step (audio_player w) p' ->
    step w (with_player p' w).

Definition reachable : vtuber -> vtuber -> Prop := rtc step.

(** The task that took the lock last. *)
Definition last_entered (h : list (nat * mark * Q)) : option nat :=
  foldl (fun acc e =>
           match e with
           | (i, Entered, _) => Some i
           | _ => acc
           end) None h.

End Pipeline.

(** * Invariants and concrete inputs *)

(** ** Sanitizer *)

(** A text that does not begin with white space. *)
Definition left_clean (t : str) : Prop :=
  match t with
  | [] => True
  | c :: _ => is_space c = false
  end.

(** What every output of [clean_response] has. *)
Record cleaned (max_len : Z) (t : str) : Prop := {
  cleaned_bmp : Forall (fun c => is_astral c = false) t;
  cleaned_star : count_star t <= 1;
  cleaned_strip : strip t = t;
  cleaned_length : t = [] \/ (Z.of_nat (length t) <= max_len)%Z
}.

Definition nova_line : str :=
  of_string "Nova: *giggles* I'm *so* happy to see you! Extra sentence overflow here.".

Definition two_prefixes : str := of_string "a: b: c".

(** ** ResponseCache *)

(** The invariant of the cache: unique keys, at most [cache_size] entries. *)
Definition cache_ok (rc : ResponseCache) : Prop :=
  List.NoDup (map fst (cache rc)) /\
  (Z.of_nat (length (cache rc)) <= cache_size rc)%Z.

Definition small_cache : ResponseCache :=
  {| cache := []; cache_size := 2; similarity_threshold := 8 # 10 |}.

Definition four_inserts : list (str * str) :=
  [(of_string "hello", of_string "hi");
   (of_string "how are you", of_string "fine");
   (of_string "hello", of_string "hi again");
   (of_string "bye", of_string "see you")].

Definition blank_query : str := of_string "   ".

Definition blank_cache : ResponseCache :=
  {| cache := [(blank_query, of_string "silence")]; cache_size := 100;
     similarity_threshold := 8 # 10 |}.

(** ** GenerationClient *)

Definition always_timeout : nat -> post_result := fun _ => TimedOut [].

(** A 500 on the first attempt, a 200 on the second. *)
Definition second_time_lucky : nat -> post_result :=
  fun n =>
    match n with
    | O => Response 500 (of_string "busy") NotJson
    | _ => Response 200 [] (Content (of_string "Nova: *waves* Hello!"))
    end.

(** ** Orchestrator *)

Module Invariants.

Import Audio Pipeline.

(** No task is past the lock yet. *)
Definition fresh (w : vtuber) : Prop :=
  history w = [] /\ processing_lock w = false /\
  Forall (fun t => at_pc t = Queued) (tasks w).

(** A task between taking and releasing the lock holds it, and it is the
    task that took it last. *)
Definition lock_inv (w : vtuber) : Prop :=
  forall i t, tasks w !! i = Some t -> inside t = true ->
              processing_lock w = true /\ last_entered (history w) = Some i.

Definition called_api (l : list effect) (t : task) : Prop :=
  In (Workflow (StartingCall (take 50 (message t)))) l.

(** A task past [_call_deepseek_api] has left the trace of its call. *)
Definition call_inv (w : vtuber) : Prop :=
  forall i t, tasks w !! i = Some t ->
              at_pc t = Finished \/ (exists r, at_pc t = Synthesizing r) ->
              called_api (log w) t.

(** Every completion written so far is at most [x]. *)
Definition completions_le (h : list (nat * mark * Q)) (x : Q) : Prop :=
  forall p k c, h !! p = Some (k, Completed, c) -> (c <= x)%Q.

(** A call that follows a completion starts [d] later at least. *)
Definition paced (d : Q) (h : list (nat * mark * Q)) : Prop :=
  forall p q k j c a,
    h !! p = Some (k, Completed, c) -> h !! q = Some (j, Called, a) ->
    p < q -> (c + d <= a)%Q.

(** A task asleep at the gate wakes [rate_limit_delay] after the last
    completion at the earliest. *)
Definition waiting_ok (w : vtuber) : Prop :=
  forall i t u, tasks w !! i = Some t -> at_pc t = RateLimitWait u ->
                (last_response_time w + rate_limit_delay w <= u)%Q.

Record pace_inv (w : vtuber) : Prop := {
  pace_last : completions_le (history w) (last_response_time w);
  pace_clock : completions_le (history w) (clock w);
  pace_wait : waiting_ok w;
  pace_calls : paced (rate_limit_delay w) (history w)
}.

End Invariants.

Export Invariants.

(** Concrete runs of the orchestrator. *)
Module Runs.

Import Audio Pipeline.

Definition alice : task :=
  {| author := of_string "alice"; message := of_string "hello world";
     at_pc := Queued |}.

Definition bob : task :=
  {| author := of_string "bob"; message := of_string "how are you";
     at_pc := Queued |}.

Definition at_ (to : pc) (t : task) : task :=
  {| author := author t; message := message t; at_pc := to |}.

(** Two chat events taken from the queue one after the other. *)
Definition two_in_flight : vtuber :=
  spawn (author bob) (message bob)
    (spawn (author alice) (message alice) (new_vtuber 1000 200)).

Definition reply : str := of_string "Hello there!".

Definition answers : nat -> post_result :=
  fun _ => Response 200 [] (Content reply).

(** The first task takes the lock, calls the service at once and gets its
    answer a quarter of a second later. *)
Definition alice_generating : vtuber := enter 0 alice two_in_flight.

Definition alice_synthesizing : vtuber :=
  generated 0 (at_ Generating alice) answers Written
    (with_clock (clock alice_generating + (1 # 4)) alice_generating).

(** The speech is ready after another quarter, and the second task takes
    the lock as soon as it is free. *)
Definition alice_finished : vtuber :=
  synthesized 0 (at_ (Synthesizing reply) alice) (Segment (Some [0%Z]))
    (with_clock (clock alice_synthesizing + (1 # 4)) alice_synthesizing).

Definition bob_entered : vtuber := enter 1 bob alice_finished.

(** The second task sleeps at the gate, and calls the service once the
    delay is over. *)
Definition bob_until : Q :=
  match tasks bob_entered !! 1 with
  | Some {| at_pc := RateLimitWait u |} => u
  | _ => 0
  end.

Definition bob_called : vtuber :=
  call 1 (at_ (RateLimitWait bob_until) bob)
    (with_clock (clock bob_entered + 1) bob_entered).

(** A cache that already holds the answer to the first message. *)
Definition warm_cache : ResponseCache :=
  {| cache := [(of_string "hello world", of_string "Hi!")];
     cache_size := 100; similarity_threshold := 8 # 10 |}.

Definition warm : vtuber :=
  {| clock := 1000; processing_lock := false; last_response_time := 0;
     rate_limit_delay := 1; max_response_length := 200;
     response_cache := warm_cache; subtitle := [];
     audio_player := new_player 10; log := []; history := [];
     tasks := [alice] |}.

Definition warm_finished : vtuber :=
  synthesized 0 (at_ (Synthesizing reply) alice) (Segment (Some [0%Z]))
    (generated 0 (at_ Generating alice) answers Written (enter 0 alice warm)).

End Runs.

(** ** AudioSink *)

(** A run of the player up to a call of [stop]. *)
Module StopRun.

Import Audio.

Definition buffer : audio := [0%Z].

(** A new player gets a buffer, and its thread starts to play it. *)
Definition playing : player :=
  with_consumer (Playing buffer) true
    (with_queue []
       (with_consumer InGet false (play buffer (new_player 10)))).

(** Ten more buffers fill the queue while the first one plays. *)
Definition playing_full : player := Nat.iter 10 (play buffer) playing.

(** [stop] sets the flag and reaches its [put]; the thread ends the buffer,
    tests the flag and leaves the loop. *)
Definition stop_at_put : player := with_stopper AtPut true playing_full.

Definition deadlocked : player :=
  with_consumer Exited false (with_consumer AtLoopTest false stop_at_put).

(** The caller of [stop] is in [put], the queue is full, and nobody is left
    to take from it. *)
Definition stuck (p : player) : Prop :=
  consumer p = Exited /\ full p = true /\ stopper p = AtPut.

End StopRun.

(** * Further definitions *)

(** ** Sanitizer *)

(** The text after the first four statements of [_clean_response], before
    its length is tested. *)
Definition prepared (text : str) : str :=
  strip (strip_prefix (sub_delete star_span 0 (sub_delete astral_span 0 text))).

(** Sentences, each followed by one blank: what the loop has appended after
    taking them. *)
Definition spaced (sentences : list str) : str :=
  concat (map (fun s => s ++ [space]) sentences).

Definition three_sentences : str :=
  of_string "One two three. Four five six! Seven eight nine?".

Definition one_long_word : str :=
  of_string "Supercalifragilisticexpialidocious".

(** ** ResponseCache *)

Definition full_small_cache : ResponseCache :=
  with_cache small_cache
    [(of_string "hello", of_string "hi");
     (of_string "how are you", of_string "fine")].

(** No entry of [d] is similar enough to [q]. *)
Definition misses (lower : str -> str) (th : Q) (q : str) (d : dict) : Prop :=
  Forall (fun e => exists sim, compute_similarity lower q (fst e) = Ok sim /\
                               Qgtb sim th = false) d.

(** ** GenerationClient *)

(** The attempts that a log of [_call_deepseek_api] announces. *)
Definition attempts (l : list effect) : list workflow_details :=
  omap (fun e =>
          match e with
          | Workflow (AttemptStarted a m t) => Some (AttemptStarted a m t)
          | _ => None
          end) l.

(** The seconds spent in [asyncio.sleep]. *)
Definition slept (l : list effect) : Z :=
  foldr (fun e acc =>
           match e with
           | Sleep n => (n + acc)%Z
           | _ => acc
           end) 0%Z l.

(** The outcomes after which the loop goes on to the next attempt, when
    there is one: a timeout, or a response that is not a 200. *)
Definition retryable (r : post_result) : bool :=
  match r with
  | TimedOut _ => true
  | Response status_code _ _ => negb (status_code =? 200)%Z
  | Failed _ | Cancelled => false
  end.

(** The announcement of attempt [i], counted from 0. *)
Definition announced (i : nat) : workflow_details :=
  AttemptStarted (i + 1) 3 (15 * (Z.of_nat i + 1)).

(** ** AudioSink *)

(** The queue of a bounded player holds at most [maxsize] items. *)
Definition within_bound (p : Audio.player) : Prop :=
  (Z.of_nat (length (Audio.audio_queue p)) <= Audio.maxsize p)%Z.

(** What the flags of a player say about its threads. *)
Definition flags_ok (p : Audio.player) : Prop :=
  (Audio.is_speaking p = true <-> exists a, Audio.consumer p = Audio.Playing a) /\
  (Audio.consumer p = Audio.Exited -> Audio.should_stop p = true) /\
  (Audio.should_stop p = true <-> Audio.stopper p <> Audio.NotCalled).

(** ** Orchestrator *)

(** A held lock has a holder. *)
Definition lock_owned (w : Pipeline.vtuber) : Prop :=
  Pipeline.processing_lock w = true ->
  exists i t, Pipeline.tasks w !! i = Some t /\ Pipeline.inside t = true.


(** ** Notifications: [TrackingSystem.update] *)

Module TrackingSystem.

(** [tracking_data]: the entries shown so far, each with the time it was
    shown at. *)
Record tracking_data := {
  workflow : list (str * str * str);   (* timestamp, phase, details *)
  errors : list (str * str)            (* timestamp, error *)
}.

(** The two queues that other threads put on, the data, and the content of
    the two text widgets. *)
Record system := {
  workflow_queue : list (str * str);
  error_queue : list str;
  data : tracking_data;
  workflow_text : str;
  error_text : str
}.

(** [track_workflow] and [track_error]: a [put] on an unbounded queue. *)
Definition track_workflow (phase details : str) (s : system) : system :=
  {| workflow_queue := workflow_queue s ++ [(phase, details)];
     error_queue := error_queue s; data := data s;
     workflow_text := workflow_text s; error_text := error_text s |}.

Definition track_error (error_msg : str) (s : system) : system :=
  {| workflow_queue := workflow_queue s;
     error_queue := error_queue s ++ [error_msg]; data := data s;
     workflow_text := workflow_text s; error_text := error_text s |}.








End TrackingSystem.

(** * Facts *)

(** ** Scanners *)

#[local] Arguments N.eqb : simpl never.
#[local] Arguments N.leb : simpl never.
#[local] Arguments is_space : simpl never.
#[local] Arguments is_astral : simpl never.
#[local] Arguments is_terminator : simpl never.

Section TextFacts.

Implicit Types (t r piece : str) (c : N) (P : N -> Prop).

Lemma count_star_cons c t :
  count_star (c :: t) = (if (star =? c)%N then 1 else 0) + count_star t.
Proof. unfold count_star. simpl. destruct (star =? c)%N; reflexivity. Qed.

Lemma count_star_app t r : count_star (t ++ r) = count_star t + count_star r.
Proof.
  unfold count_star. rewrite List.filter_app, length_app. reflexivity.
Qed.

Lemma count_star_drop n t : count_star (drop n t) <= count_star t.
Proof.
  revert n. induction t as [|c t IH]; intros [|n]; simpl; try lia.
  rewrite count_star_cons. specialize (IH n). lia.
Qed.

Lemma index_of_star_none t :
  index_of (N.eqb star) t = None <-> count_star t = 0.
Proof.
  induction t as [|c t IH]; simpl; [tauto|].
  rewrite count_star_cons.
  destruct (star =? c)%N; simpl.
  - split; [discriminate | lia].
  - destruct (index_of (N.eqb star) t); simpl in *; split; intros H;
      try discriminate; try tauto.
    destruct IH as [_ IH]. specialize (IH H). discriminate.
Qed.

Lemma sub_delete_skip m k t :
  sub_delete m k t = sub_delete m 0 (drop k t).
Proof.
  revert k. induction t as [|c t IH]; intros [|k]; try reflexivity.
  simpl sub_delete at 1. rewrite IH. reflexivity.
Qed.

Lemma sub_delete_Forall P m k t :
  Forall P t -> Forall P (sub_delete m k t).
Proof.
  intros H. revert k. induction H as [|c t Hc Ht IH]; intros k; simpl.
  - constructor.
  - destruct k as [|k]; [|apply IH].
    destruct (m (c :: t)) as [[|j]|]; try (constructor; [assumption|apply IH]).
    apply IH.
Qed.

(** Deleting the spans leaves at most the one asterisk that has no partner,
    and a text with at most one asterisk has no span. *)
Lemma remove_stars_noop t :
  count_star t <= 1 -> sub_delete star_span 0 t = t.
Proof.
  induction t as [|c t IH]; [reflexivity|].
  rewrite count_star_cons. intros H. simpl.
  rewrite N.eqb_sym.
  destruct (star =? c)%N eqn:E.
  - assert (Hn : index_of (N.eqb star) t = None)
      by (apply index_of_star_none; lia).
    rewrite Hn. simpl. f_equal. apply IH. lia.
  - f_equal. apply IH. lia.
Qed.

Lemma remove_stars_count t : count_star (sub_delete star_span 0 t) <= 1.
Proof.
  remember (length t) as n eqn:Hn.
  revert t Hn. induction n as [n IH] using lt_wf_ind. intros t Hn.
  destruct t as [|c t]; [simpl; unfold count_star; simpl; lia|].
  simpl. rewrite N.eqb_sym.
  destruct (star =? c)%N eqn:E.
  - destruct (index_of (N.eqb star) t) as [j|] eqn:Hj; simpl.
    + replace (j + 2) with (S (S j)) by lia.
      rewrite sub_delete_skip.
      apply (IH (length (drop (S j) t))); [|reflexivity].
      rewrite length_drop. simpl in Hn. lia.
    + rewrite count_star_cons, E.
      apply index_of_star_none in Hj.
      rewrite remove_stars_noop by lia. lia.
  - rewrite count_star_cons, E. simpl.
    apply (IH (length t)); [simpl in Hn; lia | reflexivity].
Qed.

Lemma remove_astral_noop t :
  Forall (fun c => is_astral c = false) t -> sub_delete astral_span 0 t = t.
Proof.
  induction 1 as [|c t Hc Ht IH]; [reflexivity|].
  simpl. rewrite Hc. f_equal. exact IH.
Qed.

Lemma remove_astral_clean t :
  Forall (fun c => is_astral c = false) (sub_delete astral_span 0 t).
Proof.
  induction t as [|c t IH]; simpl; [constructor|].
  destruct (is_astral c) eqn:E; [exact IH|].
  constructor; assumption.
Qed.

Lemma strip_prefix_Forall P t : Forall P t -> Forall P (strip_prefix t).
Proof.
  intros H. unfold strip_prefix. destruct (prefix_span t); [|exact H].
  apply Forall_drop. exact H.
Qed.

Lemma strip_prefix_count t : count_star (strip_prefix t) <= count_star t.
Proof.
  unfold strip_prefix. destruct (prefix_span t); [|lia].
  apply count_star_drop.
Qed.

Lemma lstrip_Forall P t : Forall P t -> Forall P (lstrip t).
Proof.
  induction 1 as [|c t Hc Ht IH]; simpl; [constructor|].
  destruct (is_space c); [exact IH | constructor; assumption].
Qed.

Lemma rstrip_Forall P t : Forall P t -> Forall P (rstrip t).
Proof.
  induction 1 as [|c t Hc Ht IH]; simpl; [constructor|].
  destruct (rstrip t) as [|d r'].
  - destruct (is_space c); repeat constructor; assumption.
  - constructor; assumption.
Qed.

Lemma lstrip_count t : count_star (lstrip t) <= count_star t.
Proof.
  induction t as [|c t IH]; simpl; [lia|].
  destruct (is_space c); [|lia]. rewrite count_star_cons. lia.
Qed.

Lemma rstrip_count t : count_star (rstrip t) <= count_star t.
Proof.
  induction t as [|c t IH]; simpl; [lia|].
  rewrite count_star_cons.
  destruct (rstrip t) as [|d r'].
  - destruct (is_space c); [unfold count_star; simpl; lia|].
    rewrite count_star_cons. unfold count_star at 1. simpl. lia.
  - rewrite count_star_cons. lia.
Qed.

Lemma lstrip_length t : length (lstrip t) <= length t.
Proof.
  induction t as [|c t IH]; simpl; [lia|].
  destruct (is_space c); simpl; lia.
Qed.

Lemma rstrip_snoc_length t c :
  is_space c = true -> length (rstrip (t ++ [c])) <= length t.
Proof.
  intros Hc. induction t as [|d t IH]; simpl.
  - rewrite Hc. simpl. lia.
  - destruct (rstrip (t ++ [c])) as [|e r'].
    + destruct (is_space d); simpl; lia.
    + simpl in *. lia.
Qed.

Lemma lstrip_snoc t c :
  is_space c = true ->
  lstrip (t ++ [c]) = match lstrip t with [] => [] | u => u ++ [c] end.
Proof.
  intros Hc. induction t as [|d t IH]; simpl.
  - rewrite Hc. reflexivity.
  - destruct (is_space d); [exact IH | reflexivity].
Qed.

Lemma strip_snoc_length t c :
  is_space c = true -> length (strip (t ++ [c])) <= length t.
Proof.
  intros Hc. unfold strip. rewrite lstrip_snoc by exact Hc.
  pose proof (lstrip_length t) as Hl.
  destruct (lstrip t) as [|d u] eqn:E; [simpl; lia|].
  etransitivity; [apply rstrip_snoc_length; exact Hc | exact Hl].
Qed.

Lemma rstrip_idem t : rstrip (rstrip t) = rstrip t.
Proof.
  induction t as [|c t IH]; [reflexivity|].
  simpl. destruct (rstrip t) as [|d r'] eqn:E.
  - destruct (is_space c) eqn:Hc; [reflexivity|].
    simpl. rewrite Hc. reflexivity.
  - change (rstrip (c :: d :: r')) with
      (match rstrip (d :: r') with
       | [] => if is_space c then [] else [c]
       | x => c :: x
       end).
    rewrite IH. reflexivity.
Qed.

Lemma lstrip_left_clean t : left_clean (lstrip t).
Proof.
  induction t as [|c t IH]; simpl; [exact I|].
  destruct (is_space c) eqn:E; [exact IH | exact E].
Qed.

Lemma lstrip_noop t : left_clean t -> lstrip t = t.
Proof.
  destruct t as [|c t]; simpl; [reflexivity|]. intros ->. reflexivity.
Qed.

Lemma rstrip_left_clean t : left_clean t -> left_clean (rstrip t).
Proof.
  destruct t as [|c t]; simpl; [exact (fun H => H)|].
  intros Hc. destruct (rstrip t); [rewrite Hc|]; exact Hc.
Qed.

Lemma strip_idem t : strip (strip t) = strip t.
Proof.
  unfold strip.
  rewrite (lstrip_noop (rstrip (lstrip t))).
  - apply rstrip_idem.
  - apply rstrip_left_clean, lstrip_left_clean.
Qed.

Lemma strip_Forall P t : Forall P t -> Forall P (strip t).
Proof. intros H. apply rstrip_Forall, lstrip_Forall, H. Qed.

Lemma strip_count t : count_star (strip t) <= count_star t.
Proof.
  unfold strip. etransitivity; [apply rstrip_count | apply lstrip_count].
Qed.

Lemma re_split_Forall P prev k piece t :
  Forall P piece -> Forall P t -> Forall (Forall P) (re_split prev k piece t).
Proof.
  intros Hp Ht. revert prev k piece Hp.
  induction Ht as [|c t Hc Ht IH]; intros prev k piece Hp; simpl.
  - repeat constructor. exact Hp.
  - destruct k as [|k]; [|apply IH; exact Hp].
    assert (Hsnoc : Forall P (piece ++ [c]))
      by (apply Forall_app; split; [exact Hp | repeat constructor; exact Hc]).
    destruct (sep_span prev (c :: t)) as [[|j]|].
    + apply IH, Hsnoc.
    + constructor; [exact Hp | apply IH; constructor].
    + apply IH, Hsnoc.
Qed.

Lemma re_split_count prev k piece t :
  count_star (concat (re_split prev k piece t))
  <= count_star piece + count_star t.
Proof.
  revert prev k piece.
  induction t as [|c t IH]; intros prev k piece; simpl.
  - rewrite app_nil_r. lia.
  - rewrite count_star_cons.
    assert (Hsnoc : count_star (concat (re_split (Some c) 0 (piece ++ [c]) t))
                    <= count_star piece
                       + ((if (star =? c)%N then 1 else 0) + count_star t)).
    { etransitivity; [apply IH|].
      rewrite count_star_app, count_star_cons.
      change (count_star []) with 0. lia. }
    destruct k as [|k].
    + destruct (sep_span prev (c :: t)) as [[|j]|]; try exact Hsnoc.
      simpl. rewrite count_star_app.
      specialize (IH (Some c) j []). change (count_star []) with 0 in IH.
      lia.
    + specialize (IH (Some c) k piece). lia.
Qed.

End TextFacts.

Example split_sentences_example :
  split_sentences (of_string "Hi there!  How are you? Fine.so far. ")
  = [of_string "Hi there!"; of_string "How are you?";
     of_string "Fine.so far."; []].
Proof. reflexivity. Qed.

Example remove_stars_example :
  sub_delete star_span 0 (of_string "a *b* c *d")
  = of_string "a  c *d".
Proof. reflexivity. Qed.

Example strip_prefix_example :
  strip_prefix (of_string "Nova:   hi: there") = of_string "hi: there" /\
  strip_prefix (of_string ": hi") = of_string ": hi" /\
  strip_prefix (of_string "Nova:hi") = of_string "Nova:hi".
Proof. repeat split. Qed.

(** ** Sanitizer *)

Section SanitizerFacts.

Implicit Types (t result : str) (sentences : list str) (P : N -> Prop).

(** The loop returns its start value, or a text that ends with the blank
    added after the last sentence taken, and that fitted without it. *)
Lemma accumulate_shape max_len result sentences :
  accumulate max_len result sentences = result \/
  exists x, accumulate max_len result sentences = x ++ [space] /\
            (Z.of_nat (length x) <= max_len)%Z.
Proof.
  revert result. induction sentences as [|s sentences IH]; intros result.
  - left. reflexivity.
  - simpl.
    destruct (Z.of_nat (length (result ++ s)) <=? max_len)%Z eqn:E;
      [|left; reflexivity].
    right. destruct (IH (result ++ s ++ [space])) as [-> | H]; [|exact H].
    exists (result ++ s). split; [apply app_assoc|]. apply Z.leb_le, E.
Qed.

Lemma accumulate_Forall P max_len result sentences :
  P space -> Forall P result -> Forall (Forall P) sentences ->
  Forall P (accumulate max_len result sentences).
Proof.
  intros Hs Hr Hss. revert result Hr.
  induction Hss as [|s sentences Hsn Hss IH]; intros result Hr; simpl;
    [exact Hr|].
  destruct (Z.of_nat (length (result ++ s)) <=? max_len)%Z; [|exact Hr].
  apply IH. repeat (apply Forall_app; split); try assumption.
  repeat constructor. exact Hs.
Qed.

Lemma accumulate_count max_len result sentences :
  count_star (accumulate max_len result sentences)
  <= count_star result + count_star (concat sentences).
Proof.
  revert result. induction sentences as [|s sentences IH]; intros result;
    simpl; [lia|].
  rewrite count_star_app.
  destruct (Z.of_nat (length (result ++ s)) <=? max_len)%Z; [|lia].
  etransitivity; [apply IH|].
  rewrite !count_star_app. change (count_star [space]) with 0. lia.
Qed.

Lemma clean_response_cleaned max_len t : cleaned max_len (clean_response max_len t).
Proof.
  unfold clean_response.
  set (t1 := sub_delete astral_span 0 t).
  set (t2 := sub_delete star_span 0 t1).
  set (t4 := strip (strip_prefix t2)).
  assert (H1 : Forall (fun c => is_astral c = false) t4).
  { apply strip_Forall, strip_prefix_Forall, sub_delete_Forall,
      remove_astral_clean. }
  assert (H2 : count_star t4 <= 1).
  { etransitivity; [apply strip_count|].
    etransitivity; [apply strip_prefix_count|]. apply remove_stars_count. }
  destruct (max_len <? Z.of_nat (length t4))%Z eqn:E.
  - split.
    + apply strip_Forall, accumulate_Forall; [reflexivity | constructor |].
      apply re_split_Forall; [constructor | exact H1].
    + etransitivity; [apply strip_count|].
      etransitivity; [apply accumulate_count|].
      pose proof (re_split_count None 0 [] t4) as H.
      change (count_star []) with 0 in *.
      unfold split_sentences. lia.
    + apply strip_idem.
    + destruct (accumulate_shape max_len [] (split_sentences t4))
        as [-> | (x & -> & Hx)]; [left; reflexivity|].
      right. pose proof (strip_snoc_length x space eq_refl). lia.
  - split; [exact H1 | exact H2 | apply strip_idem |].
    right. apply Z.ltb_ge, E.
Qed.

(** On a cleaned text every step but the removal of the prefix does
    nothing. *)
Lemma clean_response_on_cleaned max_len t :
  cleaned max_len t -> prefix_span t = None -> clean_response max_len t = t.
Proof.
  intros [H1 H2 H3 H4] Hp. unfold clean_response.
  rewrite (remove_astral_noop t H1), (remove_stars_noop t H2).
  unfold strip_prefix. rewrite Hp, H3.
  destruct H4 as [-> | H4].
  - destruct (max_len <? Z.of_nat (length (@nil N)))%Z eqn:E; [|reflexivity].
    simpl in E. apply Z.ltb_lt in E.
    unfold split_sentences. simpl.
    destruct (_ <=? max_len)%Z eqn:E'; [|reflexivity].
    apply Z.leb_le in E'. simpl in E'. lia.
  - apply Z.ltb_ge in H4. rewrite H4. reflexivity.
Qed.

End SanitizerFacts.

(** C5, as the claim states it: the two asides leave their surrounding
    blanks behind, so the result is not the text with single blanks. *)
Lemma clean_nova_not_single_spaced :
  clean_response 40 nova_line <> of_string "I'm happy to see you!".
Proof. vm_compute. discriminate. Qed.

(** C5 (amended): for the line of the example and a maximum of 40, the
    sanitizer returns "I'm  happy to see you!", with two blanks where the
    aside "*so*" was. *)
Theorem clean_nova_line :
  clean_response 40 nova_line = of_string "I'm  happy to see you!".
Proof. vm_compute. reflexivity. Qed.

(** C8, as the claim states it: "b: c" is an output of the sanitizer, and
    the sanitizer takes a further prefix off it. *)
Lemma clean_not_idempotent :
  ~ (forall max_len s, (exists raw, s = clean_response max_len raw) ->
                       clean_response max_len s = s).
Proof.
  intros H.
  specialize (H 40%Z (clean_response 40 two_prefixes)
                (ex_intro _ two_prefixes eq_refl)).
  vm_compute in H. discriminate H.
Qed.

(** C8 (amended): an output of the sanitizer that does not itself begin with
    a speaker prefix (a run without colon, a colon, white space) is left
    unchanged by the sanitizer. *)
Theorem clean_idempotent_without_prefix (max_len : Z) (raw : str) :
  prefix_span (clean_response max_len raw) = None ->
  clean_response max_len (clean_response max_len raw)
  = clean_response max_len raw.
Proof.
  intros Hp. apply clean_response_on_cleaned; [|exact Hp].
  apply clean_response_cleaned.
Qed.

Lemma clean_idempotent_without_prefix_witness :
  prefix_span (clean_response 40 nova_line) = None /\
  clean_response 40 (clean_response 40 nova_line)
  = clean_response 40 nova_line.
Proof.
  split; [vm_compute; reflexivity|].
  apply (clean_idempotent_without_prefix 40 nova_line).
  vm_compute. reflexivity.
Defined.

(** ** ResponseCache *)

Section DictFacts.

Implicit Types (d : dict) (k v : str).

Lemma key_eqb_refl k : key_eqb k k = true.
Proof. unfold key_eqb. apply bool_decide_eq_true. reflexivity. Qed.

Lemma dict_set_length k v d : length (dict_set k v d) <= S (length d).
Proof.
  induction d as [|[k' v'] d IH]; simpl; [lia|].
  destruct (key_eqb k' k); simpl; lia.
Qed.

Lemma dict_set_keys k v d x :
  In x (map fst (dict_set k v d)) -> x = k \/ In x (map fst d).
Proof.
  induction d as [|[k' v'] d IH]; simpl.
  - intros [<- | []]. left. reflexivity.
  - destruct (key_eqb k' k); simpl.
    + intros [<- | H]; [left; reflexivity | right; right; exact H].
    + intros [<- | H]; [right; left; reflexivity|].
      destruct (IH H) as [-> | H']; [left; reflexivity | right; right; exact H'].
Qed.

Lemma dict_set_NoDup k v d :
  List.NoDup (map fst d) -> List.NoDup (map fst (dict_set k v d)).
Proof.
  induction d as [|[k' v'] d IH]; simpl; intros H.
  - constructor; [intros [] | constructor].
  - inversion H as [|? ? Hnotin Hnd]; subst.
    unfold key_eqb. case_bool_decide as E; simpl.
    + subst k'. constructor; assumption.
    + constructor; [|apply IH, Hnd].
      intros Hin. destruct (dict_set_keys _ _ _ _ Hin) as [-> | Hin'];
        [apply E; reflexivity | apply Hnotin, Hin'].
Qed.

End DictFacts.

Section AddFacts.

Implicit Types (rc : ResponseCache) (q r : str).

Lemma add_cache_size rc q r rc' :
  add rc q r = Ok rc' -> cache_size rc' = cache_size rc.
Proof.
  unfold add. destruct (cache_size rc <=? _)%Z.
  - destruct (cache rc) as [|[k v] d]; simpl; [discriminate|].
    rewrite key_eqb_refl. simpl. intros [= <-]. reflexivity.
  - simpl. intros [= <-]. reflexivity.
Qed.

Lemma add_cache_ok rc q r rc' :
  cache_ok rc -> add rc q r = Ok rc' -> cache_ok rc'.
Proof.
  intros [Hnd Hlen]. unfold add.
  destruct (cache_size rc <=? _)%Z eqn:E.
  - destruct (cache rc) as [|[k v] d] eqn:Hc; simpl; [discriminate|].
    rewrite key_eqb_refl. simpl. intros [= <-]. split; simpl.
    + apply dict_set_NoDup. simpl in Hnd. inversion Hnd; assumption.
    + pose proof (dict_set_length q r d). simpl in Hlen. lia.
  - simpl. intros [= <-]. apply Z.leb_gt in E. split; simpl.
    + apply dict_set_NoDup, Hnd.
    + pose proof (dict_set_length q r (cache rc)). lia.
Qed.

Lemma add_all_cache_ok rc ops :
  cache_ok rc ->
  cache_ok (add_all rc ops) /\ cache_size (add_all rc ops) = cache_size rc.
Proof.
  revert rc. induction ops as [|[q r] ops IH]; intros rc H; simpl.
  - split; [exact H | reflexivity].
  - destruct (add rc q r) as [rc'|e] eqn:E; [|apply IH, H].
    destruct (IH rc' (add_cache_ok _ _ _ _ H E)) as [Hok Hsize].
    split; [exact Hok|]. rewrite Hsize. eapply add_cache_size, E.
Qed.

End AddFacts.

(** C9: starting from the empty cache of the constructor, with a capacity
    that is not negative, after any sequence of calls of [add] the cache
    holds at most [cache_size] entries and no key twice. *)
Theorem cache_bounded_unique_keys (rc : ResponseCache)
  (ops : list (str * str)) :
  (0 <= cache_size rc)%Z -> cache rc = [] ->
  (Z.of_nat (length (cache (add_all rc ops))) <= cache_size rc)%Z /\
  List.NoDup (map fst (cache (add_all rc ops))).
Proof.
  intros Hsize Hempty.
  assert (H0 : cache_ok rc).
  { split; rewrite Hempty; simpl; [constructor | lia]. }
  destruct (add_all_cache_ok rc ops H0) as [[Hnd Hlen] Heq].
  split; [rewrite <- Heq; exact Hlen | exact Hnd].
Qed.

Lemma cache_bounded_unique_keys_witness :
  (Z.of_nat (length (cache (add_all small_cache four_inserts))) <= 2)%Z /\
  List.NoDup (map fst (cache (add_all small_cache four_inserts))).
Proof.
  apply (cache_bounded_unique_keys small_cache four_inserts).
  - simpl. lia.
  - reflexivity.
Defined.

Example similarity_example :
  compute_similarity ascii_lower (of_string "Hello  big world")
    (of_string "hello World") = Ok (2 # 3).
Proof. vm_compute. reflexivity. Qed.

Example fifo_eviction_example :
  map fst (cache (add_all small_cache four_inserts))
  = [of_string "hello"; of_string "bye"].
Proof. vm_compute. reflexivity. Qed.

Section SimilarityFacts.

Variable lower : str -> str.

(** White space has no case: [str.lower] maps a blank text to a blank
    text. *)
Hypothesis lower_blank :
  forall s, forallb is_space s = true -> forallb is_space (lower s) = true.

Lemma split_ws_blank s : forallb is_space s = true -> split_ws [] s = [].
Proof.
  induction s as [|c s IH]; [reflexivity|].
  simpl. intros H. apply andb_prop in H as [Hc Hs].
  rewrite Hc. apply IH, Hs.
Qed.

Lemma words_blank s : forallb is_space s = true -> words lower s = ∅.
Proof.
  intros H. unfold words. rewrite split_ws_blank; [reflexivity|].
  apply lower_blank, H.
Qed.

Lemma empty_intersection (X : gset str) : ∅ ∩ X = ∅.
Proof. apply (left_absorb_L _ _). Qed.

Lemma empty_union (X : gset str) : ∅ ∪ X = X.
Proof. apply (left_id_L _ _). Qed.

Lemma compute_similarity_total s1 s2 :
  exists q, compute_similarity lower s1 s2 = Ok q.
Proof.
  unfold compute_similarity.
  destruct (size (words lower s1 ∪ words lower s2)) as [|n]; simpl;
    eexists; reflexivity.
Qed.

Lemma compute_similarity_blank query s :
  forallb is_space query = true ->
  exists q, compute_similarity lower query s = Ok q /\ (q == 0)%Q.
Proof.
  intros H. unfold compute_similarity. rewrite (words_blank query H).
  rewrite empty_intersection, size_empty.
  destruct (size (∅ ∪ words lower s)) as [|n]; simpl.
  - exists 0%Q. split; reflexivity.
  - eexists. split; [reflexivity|]. reflexivity.
Qed.

Lemma get_items_blank threshold query items :
  (0 <= threshold)%Q -> forallb is_space query = true ->
  get_items lower threshold query items = Ok None.
Proof.
  intros Hth Hq. induction items as [|[cached_query response] items IH];
    [reflexivity|].
  simpl. destruct (compute_similarity_blank query cached_query Hq)
    as (q & -> & Hz).
  simpl. unfold Qgtb.
  assert (Hle : Qle_bool q threshold = true)
    by (apply Qle_bool_iff; rewrite Hz; exact Hth).
  rewrite Hle. simpl. exact IH.
Qed.

(** C10: [_compute_similarity] returns a number for every pair of texts,
    the division being guarded, and 0 when both texts are blank; so, the
    threshold not being negative, [get] with a blank query returns [None]
    whatever the cache holds, the blank query itself included. *)
Theorem similarity_guarded_blank_lookup (rc : ResponseCache) (query : str) :
  (0 <= similarity_threshold rc)%Q ->
  forallb is_space query = true ->
  (forall s1 s2, exists q, compute_similarity lower s1 s2 = Ok q) /\
  (forall s, forallb is_space s = true ->
             compute_similarity lower query s = Ok 0%Q) /\
  get lower rc query = Ok None /\
  (forall response rc',
      add rc query response = Ok rc' -> get lower rc' query = Ok None).
Proof.
  intros Hth Hq. repeat split.
  - apply compute_similarity_total.
  - intros s Hs. unfold compute_similarity.
    rewrite (words_blank query Hq).
    rewrite empty_intersection, empty_union.
    rewrite (words_blank s Hs), size_empty. reflexivity.
  - apply get_items_blank; assumption.
  - intros response rc' Hadd. apply get_items_blank; [|exact Hq].
    unfold add in Hadd.
    destruct (if (cache_size rc <=? _)%Z then _ else _) as [d|e];
      simpl in Hadd; [|discriminate].
    injection Hadd as <-. exact Hth.
Qed.

End SimilarityFacts.

Ltac decide_cmp :=
  repeat match goal with
    | |- context [(?a <=? ?b)%N] =>
        first [ rewrite (proj2 (N.leb_le a b)) by lia
              | rewrite (proj2 (N.leb_gt a b)) by lia ]
    | |- context [(?a =? ?b)%N] =>
        first [ rewrite (proj2 (N.eqb_eq a b)) by lia
              | rewrite (proj2 (N.eqb_neq a b)) by lia ]
    end.

Lemma ascii_lower_blank s :
  forallb is_space s = true -> forallb is_space (ascii_lower s) = true.
Proof.
  induction s as [|c s IH]; [reflexivity|].
  simpl. intros H. apply andb_prop in H as [Hc Hs].
  rewrite (IH Hs), andb_true_r.
  destruct ((65 <=? c) && (c <=? 90))%N eqn:E; [|exact Hc].
  apply andb_prop in E as [E1 E2].
  apply N.leb_le in E1, E2.
  exfalso. revert Hc. unfold is_space. decide_cmp. discriminate.
Qed.

Lemma similarity_guarded_blank_lookup_witness :
  (forall s1 s2, exists q, compute_similarity ascii_lower s1 s2 = Ok q) /\
  (forall s, forallb is_space s = true ->
             compute_similarity ascii_lower blank_query s = Ok 0%Q) /\
  get ascii_lower blank_cache blank_query = Ok None /\
  (forall response rc',
      add blank_cache blank_query response = Ok rc' ->
      get ascii_lower rc' blank_query = Ok None).
Proof.
  apply (similarity_guarded_blank_lookup ascii_lower ascii_lower_blank
           blank_cache blank_query).
  - vm_compute. discriminate.
  - reflexivity.
Defined.

(** ** GenerationClient *)

Section GenerationFacts.

Variables (max_len : Z) (post : nat -> post_result) (m : nat).

(** What the loop returns is the sanitized content of a 200 response. *)
Lemma retry_loop_returned remaining attempt l s :
  retry_loop max_len post m remaining attempt = (l, Returned (Some s)) ->
  exists n text c,
    attempt <= n < attempt + remaining /\
    post n = Response 200 text (Content c) /\
    s = clean_response max_len c.
Proof.
  revert attempt l. induction remaining as [|remaining IH]; intros attempt l;
    simpl; [discriminate|].
  destruct (post attempt) as [status text json|e|e|] eqn:Hpost;
    try discriminate.
  - destruct (status =? 200)%Z eqn:Hs.
    + apply Z.eqb_eq in Hs. subst status.
      destruct json as [| |c]; try discriminate.
      intros [= <- <-]. exists attempt, text, c.
      repeat split; [lia | lia | exact Hpost].
    + destruct (attempt =? m - 1); [discriminate|].
      destruct (retry_loop max_len post m remaining (S attempt))
        as [l' r'] eqn:Hrec.
      intros [= <- ->].
      destruct (IH _ _ Hrec) as (n & text' & c & Hn & Hp & Hc).
      exists n, text', c. repeat split; [lia | lia | exact Hp | exact Hc].
  - destruct (attempt =? m - 1); [discriminate|].
    destruct (retry_loop max_len post m remaining (S attempt))
      as [l' r'] eqn:Hrec.
    intros [= <- ->].
    destruct (IH _ _ Hrec) as (n & text' & c & Hn & Hp & Hc).
    exists n, text', c. repeat split; [lia | lia | exact Hp | exact Hc].
Qed.

(** The loop does not run out: its last iteration returns or raises. *)
Lemma retry_loop_not_exhausted remaining attempt l :
  attempt + remaining = m -> 0 < remaining ->
  retry_loop max_len post m remaining attempt <> (l, Returned None).
Proof.
  revert attempt l. induction remaining as [|remaining IH]; intros attempt l;
    [lia|].
  intros Hm _. simpl.
  assert (Hlast : (attempt =? m - 1) = false -> 0 < remaining).
  { intros E. apply Nat.eqb_neq in E. lia. }
  destruct (post attempt) as [status text json|e|e|]; try discriminate.
  - destruct (status =? 200)%Z; [destruct json; discriminate|].
    destruct (attempt =? m - 1); [discriminate|].
    destruct (retry_loop max_len post m remaining (S attempt))
      as [l' r'] eqn:Hrec.
    intros [= <- ->]. apply (IH (S attempt) l'); [lia | auto | exact Hrec].
  - destruct (attempt =? m - 1); [discriminate|].
    destruct (retry_loop max_len post m remaining (S attempt))
      as [l' r'] eqn:Hrec.
    intros [= <- ->]. apply (IH (S attempt) l'); [lia | auto | exact Hrec].
Qed.

End GenerationFacts.

Example retry_after_500 :
  call_deepseek_api 200 second_time_lucky (of_string "hi")
  = ([Workflow (StartingCall (of_string "hi"));
      Workflow (AttemptStarted 1 3 15);
      Error (ApiError 500 (of_string "busy"));
      Workflow (AttemptStarted 2 3 30);
      Workflow GotResponse],
     Returned (Some (of_string "Hello!"))).
Proof. vm_compute. reflexivity. Qed.

(** C2, as the claim states it: after three timeouts the error queue holds
    four entries, not three. *)
Lemma three_timeouts_not_three_errors :
  ~ (snd (call_deepseek_api 40 always_timeout []) = Returned (Some apology) /\
     length (errors (fst (call_deepseek_api 40 always_timeout []))) = 3).
Proof. vm_compute. intros [_ H]. discriminate H. Qed.

(** C2 (amended): when the three attempts end in a read or connect timeout,
    [_call_deepseek_api] returns the apology, no exception leaves it, and it
    puts four entries on the error queue: one for each attempt and one for
    the failure of the call. *)
Theorem three_timeouts_apology_four_errors (max_len : Z)
  (post : nat -> post_result) (user_message e1 e2 e3 : str) :
  post 0 = TimedOut e1 -> post 1 = TimedOut e2 -> post 2 = TimedOut e3 ->
  snd (call_deepseek_api max_len post user_message)
  = Returned (Some apology) /\
  errors (fst (call_deepseek_api max_len post user_message))
  = [Error (TimeoutOnAttempt 1 e1); Error (TimeoutOnAttempt 2 e2);
     Error (TimeoutOnAttempt 3 e3);
     Error (ApiCallFailed 3 (TimeoutException e3))].
Proof.
  intros H1 H2 H3. unfold call_deepseek_api, max_retries. simpl.
  rewrite H1, H2, H3. simpl. split; reflexivity.
Qed.

Lemma three_timeouts_apology_four_errors_witness :
  snd (call_deepseek_api 40 always_timeout []) = Returned (Some apology) /\
  errors (fst (call_deepseek_api 40 always_timeout []))
  = [Error (TimeoutOnAttempt 1 []); Error (TimeoutOnAttempt 2 []);
     Error (TimeoutOnAttempt 3 []);
     Error (ApiCallFailed 3 (TimeoutException []))].
Proof.
  apply (three_timeouts_apology_four_errors 40 always_timeout [] [] [] []);
    reflexivity.
Defined.

(** C6, as the claim states it: with a maximum of 40 the apology of the
    fallback, 112 code points long, is no output of the sanitizer. *)
Lemma fallback_not_sanitized :
  ~ (forall max_len post user_message s,
        snd (call_deepseek_api max_len post user_message)
        = Returned (Some s) ->
        exists raw, s = clean_response max_len raw).
Proof.
  intros H.
  destruct (H 40%Z always_timeout [] apology eq_refl) as [raw Hraw].
  pose proof (cleaned_length _ _ (clean_response_cleaned 40 raw)) as Hlen.
  rewrite <- Hraw in Hlen. destruct Hlen as [Hnil | Hlen].
  - discriminate Hnil.
  - vm_compute in Hlen. apply Hlen. reflexivity.
Qed.

(** C6 (amended): [_call_deepseek_api] ends in one of three ways. It returns
    the sanitized content of a 200 response met on one of the three
    attempts; or it returns the apology as it is written in the code, not
    sanitized; or the task was cancelled and [CancelledError] leaves it. It
    never returns [None]. *)
Theorem generation_returns_sanitized_or_apology (max_len : Z)
  (post : nat -> post_result) (user_message : str) :
  (exists n text c,
      n < 3 /\ post n = Response 200 text (Content c) /\
      snd (call_deepseek_api max_len post user_message)
      = Returned (Some (clean_response max_len c))) \/
  snd (call_deepseek_api max_len post user_message)
  = Returned (Some apology) \/
  snd (call_deepseek_api max_len post user_message) = Raised CancelledError.
Proof.
  unfold call_deepseek_api.
  destruct (retry_loop max_len post max_retries max_retries 0) as [l r] eqn:E.
  destruct r as [[s|]|e].
  - left. destruct (retry_loop_returned _ _ _ _ _ _ _ E)
      as (n & text & c & Hn & Hp & ->).
    exists n, text, c. unfold max_retries in Hn.
    repeat split; [lia | exact Hp].
  - exfalso. revert E. apply retry_loop_not_exhausted;
      unfold max_retries; lia.
  - right. destruct e; simpl; auto.
Qed.

(** ** Orchestrator: the processing lock *)

Section LockFacts.

Import Audio Pipeline.

Implicit Types (w : vtuber) (t : task) (h : list (nat * mark * Q)).

Lemma last_entered_snoc h i m c :
  last_entered (h ++ [(i, m, c)])
  = match m with Entered => Some i | _ => last_entered h end.
Proof. unfold last_entered. rewrite foldl_app. reflexivity. Qed.

Lemma lookup_moved (ts : list task) i t to j tj :
  <[i := {| author := author t; message := message t; at_pc := to |}]> ts
    !! j = Some tj ->
  (j = i /\ at_pc tj = to) \/ (j <> i /\ ts !! j = Some tj).
Proof.
  intros H. apply list_lookup_insert_Some in H as [(-> & <- & _) | [Hne H]].
  - left. split; reflexivity.
  - right. split; [congruence | exact H].
Qed.

Lemma fresh_lock_inv w : fresh w -> lock_inv w.
Proof.
  intros (_ & _ & Hall) i t Hi Hin.
  rewrite Forall_lookup in Hall. unfold inside in Hin.
  rewrite (Hall i t Hi) in Hin. discriminate Hin.
Qed.

(** The holder moves on, the lock and the order of entry staying. *)
Lemma lock_inv_move w w' i t to :
  lock_inv w -> tasks w !! i = Some t -> inside t = true ->
  tasks w' = <[i := {| author := author t; message := message t;
                       at_pc := to |}]> (tasks w) ->
  processing_lock w' = processing_lock w ->
  last_entered (history w') = last_entered (history w) ->
  lock_inv w'.
Proof.
  intros Hinv Hi Hin Ht Hl Hh j tj Hj Hjin. rewrite Ht in Hj.
  rewrite Hl, Hh.
  destruct (lookup_moved _ _ _ _ _ _ Hj) as [[-> _] | [_ Hj']].
  - exact (Hinv i t Hi Hin).
  - exact (Hinv j tj Hj' Hjin).
Qed.

(** The holder leaves. *)
Lemma lock_inv_leave w w' i t :
  lock_inv w -> tasks w !! i = Some t -> inside t = true ->
  tasks w' = <[i := {| author := author t; message := message t;
                       at_pc := Finished |}]> (tasks w) ->
  last_entered (history w') = last_entered (history w) ->
  lock_inv w'.
Proof.
  intros Hinv Hi Hin Ht Hh j tj Hj Hjin. rewrite Ht in Hj.
  destruct (lookup_moved _ _ _ _ _ _ Hj) as [[-> Hpc] | [Hne Hj']].
  - unfold inside in Hjin. rewrite Hpc in Hjin. discriminate Hjin.
  - destruct (Hinv i t Hi Hin) as [_ Hi'].
    destruct (Hinv j tj Hj' Hjin) as [_ Hj''].
    congruence.
Qed.

(** A task takes the free lock. *)
Lemma lock_inv_take w w' i t to :
  lock_inv w -> processing_lock w = false ->
  tasks w' = <[i := {| author := author t; message := message t;
                       at_pc := to |}]> (tasks w) ->
  processing_lock w' = true ->
  last_entered (history w') = Some i ->
  lock_inv w'.
Proof.
  intros Hinv Hfree Ht Hl Hh j tj Hj Hjin. rewrite Ht in Hj.
  destruct (lookup_moved _ _ _ _ _ _ Hj) as [[-> _] | [_ Hj']].
  - split; assumption.
  - destruct (Hinv j tj Hj' Hjin) as [Hlock _]. congruence.
Qed.

Lemma inside_of_pc t :
  at_pc t = Generating \/ (exists u, at_pc t = RateLimitWait u) \/
  (exists r, at_pc t = Synthesizing r) ->
  inside t = true.
Proof.
  unfold inside. intros [-> | [[u ->] | [r ->]]]; reflexivity.
Qed.

Lemma lock_inv_finish w i t :
  lock_inv w -> tasks w !! i = Some t -> inside t = true ->
  lock_inv (finish i t w).
Proof.
  intros Hinv Hi Hin.
  apply (lock_inv_leave w _ i t Hinv Hi Hin); simpl; [reflexivity|].
  rewrite last_entered_snoc. reflexivity.
Qed.

Lemma lock_inv_step w w' : lock_inv w -> step w w' -> lock_inv w'.
Proof.
  intros Hinv Hstep.
  destruct Hstep as [w dt Hdt | w a m | w i t Hi Hpc Hfree
                    | w i t u Hi Hpc Hu | w i t post wr Hi Hpc
                    | w i t r tts Hi Hpc | w p' Hp].
  - exact Hinv.
  - intros j tj Hj Hjin. simpl in Hj.
    apply lookup_app_Some in Hj as [Hj | [_ Hj]].
    + exact (Hinv j tj Hj Hjin).
    + destruct (j - length (tasks w)) as [|n]; simpl in Hj; [|discriminate].
      injection Hj as <-. discriminate Hjin.
  - unfold enter.
    destruct (Qltb _ _).
    + eapply (lock_inv_take w _ i t _ Hinv Hfree); simpl;
        [reflexivity | reflexivity |].
      rewrite last_entered_snoc. reflexivity.
    + eapply (lock_inv_take w _ i t _ Hinv Hfree); simpl;
        [reflexivity | reflexivity |].
      rewrite !last_entered_snoc. reflexivity.
  - assert (Hin : inside t = true) by (apply inside_of_pc; eauto).
    eapply (lock_inv_move w _ i t _ Hinv Hi Hin); simpl;
      [reflexivity | reflexivity |].
    rewrite last_entered_snoc. reflexivity.
  - assert (Hin : inside t = true) by (apply inside_of_pc; eauto).
    unfold generated.
    destruct (call_deepseek_api _ _ _) as [l [[[|c s]|]|e]].
    + apply lock_inv_finish; auto.
    + eapply (lock_inv_move _ _ i t _ Hinv Hi Hin); destruct wr; reflexivity.
    + apply lock_inv_finish; auto.
    + apply (lock_inv_leave _ _ i t Hinv Hi Hin); reflexivity.
  - assert (Hin : inside t = true) by (apply inside_of_pc; eauto).
    unfold synthesized.
    destruct tts as [[a|]|e]; apply lock_inv_finish; auto.
  - exact Hinv.
Qed.

Lemma lock_inv_reachable w0 w : fresh w0 -> reachable w0 w -> lock_inv w.
Proof.
  intros Hfresh Hreach. revert w Hreach. apply rtc_ind_r.
  - apply fresh_lock_inv, Hfresh.
  - intros w1 w2 _ Hstep IH. exact (lock_inv_step w1 w2 IH Hstep).
Qed.

End LockFacts.

(** ** Orchestrator: the cache is never consulted *)

Section CacheBypass.

Import Audio Pipeline.

Implicit Types (w : vtuber) (t : task).

Lemma call_deepseek_api_log max_len post user_message :
  In (Workflow (StartingCall (take 50 user_message)))
     (fst (call_deepseek_api max_len post user_message)).
Proof.
  unfold call_deepseek_api.
  destruct (retry_loop _ _ _ _ _) as [l [v|e]]; simpl; [left; reflexivity|].
  destruct (is_Exception e); simpl; left; reflexivity.
Qed.

(** A task moves, the log grows by [l], the other tasks stay. *)
Lemma call_inv_move w w' i t to l :
  call_inv w -> tasks w !! i = Some t ->
  tasks w' = <[i := {| author := author t; message := message t;
                       at_pc := to |}]> (tasks w) ->
  log w' = log w ++ l ->
  (to = Finished \/ (exists r, to = Synthesizing r) ->
   called_api (log w ++ l) t) ->
  call_inv w'.
Proof.
  intros Hinv Hi Ht Hl Hto j tj Hj Hpc. rewrite Ht in Hj. rewrite Hl.
  apply list_lookup_insert_Some in Hj as [(-> & <- & _) | [Hne Hj]].
  - apply Hto. exact Hpc.
  - unfold called_api. apply in_or_app. left. exact (Hinv j tj Hj Hpc).
Qed.

Lemma call_inv_step w w' : call_inv w -> step w w' -> call_inv w'.
Proof.
  intros Hinv Hstep.
  destruct Hstep as [w dt Hdt | w a m | w i t Hi Hpc Hfree
                    | w i t u Hi Hpc Hu | w i t post wr Hi Hpc
                    | w i t r tts Hi Hpc | w p' Hp].
  - exact Hinv.
  - intros j tj Hj Hjpc. simpl in Hj.
    apply lookup_app_Some in Hj as [Hj | [_ Hj]].
    + exact (Hinv j tj Hj Hjpc).
    + destruct (j - length (tasks w)) as [|n]; simpl in Hj; [|discriminate].
      injection Hj as <-. destruct Hjpc as [H | [r H]]; discriminate H.
  - unfold enter. destruct (Qltb _ _);
      (eapply (call_inv_move w _ i t _ [] Hinv Hi); simpl;
       [reflexivity | symmetry; apply app_nil_r
       | intros [H | [r H]]; discriminate H]).
  - eapply (call_inv_move w _ i t _ [] Hinv Hi); simpl;
      [reflexivity | symmetry; apply app_nil_r
      | intros [H | [r H]]; discriminate H].
  - unfold generated.
    pose proof (call_deepseek_api_log (max_response_length w) post (message t))
      as Hlog.
    destruct (call_deepseek_api _ _ _) as [l r]. simpl in Hlog.
    assert (Hl : forall l', called_api ((log w ++ l) ++ l') t).
    { intros l'. unfold called_api. rewrite <- app_assoc.
      apply in_or_app. right. apply in_or_app. left. exact Hlog. }
    destruct r as [[[|c s]|]|e].
    + eapply (call_inv_move w _ i t _ l Hinv Hi); simpl;
        [reflexivity | reflexivity |].
      intros _. rewrite <- (app_nil_r (log w ++ l)). apply Hl.
    + destruct wr as [|e content].
      * eapply (call_inv_move w _ i t _ (l ++ [_]) Hinv Hi); simpl;
          [reflexivity | symmetry; apply app_assoc |].
        intros _. rewrite app_assoc. apply Hl.
      * eapply (call_inv_move w _ i t _ (l ++ [_] ++ [_]) Hinv Hi); simpl;
          [reflexivity | rewrite <- !app_assoc; reflexivity |].
        intros _. rewrite app_assoc. apply Hl.
    + eapply (call_inv_move w _ i t _ l Hinv Hi); simpl;
        [reflexivity | reflexivity |].
      intros _. rewrite <- (app_nil_r (log w ++ l)). apply Hl.
    + eapply (call_inv_move w _ i t _ l Hinv Hi); simpl;
        [reflexivity | reflexivity |].
      intros _. rewrite <- (app_nil_r (log w ++ l)). apply Hl.
  - assert (Hc : called_api (log w) t) by (apply (Hinv i t Hi); eauto).
    unfold synthesized. destruct tts as [[a|]|e].
    + eapply (call_inv_move w _ i t _ [] Hinv Hi); simpl;
        [reflexivity | symmetry; apply app_nil_r |].
      intros _. rewrite app_nil_r. exact Hc.
    + eapply (call_inv_move w _ i t _ [] Hinv Hi); simpl;
        [reflexivity | symmetry; apply app_nil_r |].
      intros _. rewrite app_nil_r. exact Hc.
    + eapply (call_inv_move w _ i t _ [_] Hinv Hi); simpl;
        [reflexivity | reflexivity |].
      intros _. unfold called_api. apply in_or_app. left. exact Hc.
  - exact Hinv.
Qed.

Lemma response_cache_step w w' : step w w' -> response_cache w' = response_cache w.
Proof.
  intros Hstep.
  destruct Hstep as [w dt Hdt | w a m | w i t Hi Hpc Hfree
                    | w i t u Hi Hpc Hu | w i t post wr Hi Hpc
                    | w i t r tts Hi Hpc | w p' Hp]; try reflexivity.
  - unfold enter. destruct (Qltb _ _); reflexivity.
  - unfold generated. destruct (call_deepseek_api _ _ _) as [l [[[|c s]|]|e]];
      try reflexivity.
    destruct wr; reflexivity.
  - unfold synthesized. destruct tts as [[a|]|e]; reflexivity.
Qed.

Lemma bypass_reachable w0 w :
  fresh w0 -> reachable w0 w ->
  response_cache w = response_cache w0 /\ call_inv w.
Proof.
  intros Hfresh Hreach. revert w Hreach. apply rtc_ind_r.
  - split; [reflexivity|].
    intros j tj Hj Hjpc. destruct Hfresh as (_ & _ & Hall).
    rewrite Forall_lookup in Hall. rewrite (Hall j tj Hj) in Hjpc.
    destruct Hjpc as [H | [r H]]; discriminate H.
  - intros w1 w2 _ Hstep [Hc Hinv]. split.
    + rewrite (response_cache_step w1 w2 Hstep). exact Hc.
    + exact (call_inv_step w1 w2 Hinv Hstep).
Qed.

End CacheBypass.

(** ** Orchestrator: the rate limit *)

Section PaceFacts.

Import Audio Pipeline.

Implicit Types (w : vtuber) (t : task) (h : list (nat * mark * Q)) (d : Q).

Lemma completions_le_mono h x y :
  completions_le h x -> (x <= y)%Q -> completions_le h y.
Proof. intros H Hxy p k c Hp. specialize (H p k c Hp). lra. Qed.

Lemma completions_le_snoc h x i m c :
  completions_le h x -> (m = Completed -> (c <= x)%Q) ->
  completions_le (h ++ [(i, m, c)]) x.
Proof.
  intros H Hm p k c' Hp. apply lookup_snoc_Some in Hp as [[_ Hp] | [_ Hp]].
  - exact (H p k c' Hp).
  - injection Hp as -> -> ->. apply Hm. reflexivity.
Qed.

Lemma paced_snoc_other d h i m c :
  paced d h -> m <> Called -> paced d (h ++ [(i, m, c)]).
Proof.
  intros H Hm p q k j c' a Hp Hq Hpq.
  apply lookup_snoc_Some in Hq as [[Hlen Hq] | [_ Hq]].
  - apply lookup_snoc_Some in Hp as [[_ Hp] | [-> _]]; [|lia].
    exact (H p q k j c' a Hp Hq Hpq).
  - injection Hq as _ -> _. contradiction Hm. reflexivity.
Qed.

Lemma paced_snoc_called d h i a l :
  paced d h -> completions_le h l -> (l + d <= a)%Q ->
  paced d (h ++ [(i, Called, a)]).
Proof.
  intros H Hle Hl p q k j c a' Hp Hq Hpq.
  apply lookup_snoc_Some in Hq as [[Hlen Hq] | [-> Hq]].
  - apply lookup_snoc_Some in Hp as [[_ Hp] | [-> _]]; [|lia].
    exact (H p q k j c a' Hp Hq Hpq).
  - injection Hq as _ ->.
    apply lookup_snoc_Some in Hp as [[_ Hp] | [-> _]]; [|lia].
    specialize (Hle p k c Hp). lra.
Qed.

Lemma fresh_pace_inv w : fresh w -> pace_inv w.
Proof.
  intros (Hh & _ & Hall). split.
  - intros p k c Hp. rewrite Hh in Hp. discriminate Hp.
  - intros p k c Hp. rewrite Hh in Hp. discriminate Hp.
  - intros i t u Hi Hpc. rewrite Forall_lookup in Hall.
    rewrite (Hall i t Hi) in Hpc. discriminate Hpc.
  - intros p q k j c a Hp. rewrite Hh in Hp. discriminate Hp.
Qed.

Lemma waiting_ok_move w w' i t to :
  waiting_ok w ->
  tasks w' = <[i := {| author := author t; message := message t;
                       at_pc := to |}]> (tasks w) ->
  last_response_time w' = last_response_time w ->
  rate_limit_delay w' = rate_limit_delay w ->
  (forall u, to = RateLimitWait u ->
             (last_response_time w + rate_limit_delay w <= u)%Q) ->
  waiting_ok w'.
Proof.
  intros Hw Ht Hl Hd Hto j tj u Hj Hpc. rewrite Ht in Hj. rewrite Hl, Hd.
  destruct (lookup_moved _ _ _ _ _ _ Hj) as [[-> Hpc'] | [_ Hj']].
  - apply Hto. congruence.
  - exact (Hw j tj u Hj' Hpc).
Qed.

Lemma Qltb_false a b : Qltb a b = false -> (b <= a)%Q.
Proof.
  unfold Qltb. intros H. apply negb_false_iff in H.
  apply Qle_bool_iff, H.
Qed.

Lemma pace_inv_call w i t :
  pace_inv w -> (last_response_time w + rate_limit_delay w <= clock w)%Q ->
  pace_inv (call i t w).
Proof.
  intros [H1 H2 H3 H4] Hl. split; simpl.
  - apply completions_le_snoc; [exact H1 | discriminate].
  - apply completions_le_snoc; [exact H2 | discriminate].
  - eapply (waiting_ok_move w _ i t _ H3); simpl; try reflexivity.
    discriminate.
  - apply (paced_snoc_called _ _ _ _ (last_response_time w)); assumption.
Qed.

Lemma pace_inv_finish w i t :
  pace_inv w -> lock_inv w -> tasks w !! i = Some t -> inside t = true ->
  pace_inv (finish i t w).
Proof.
  intros [H1 H2 H3 H4] Hlock Hi Hin. split; simpl.
  - apply completions_le_snoc; [exact H2 | intros _; lra].
  - apply completions_le_snoc; [exact H2 | intros _; lra].
  - intros j tj u Hj Hpc. simpl in Hj.
    destruct (lookup_moved _ _ _ _ _ _ Hj) as [[-> Hpc'] | [Hne Hj']];
      [congruence|].
    assert (Hjin : inside tj = true)
      by (unfold inside; rewrite Hpc; reflexivity).
    destruct (Hlock i t Hi Hin) as [_ Ha].
    destruct (Hlock j tj Hj' Hjin) as [_ Hb]. congruence.
  - apply paced_snoc_other; [exact H4 | discriminate].
Qed.

(** The world changes outside the fields the invariant reads. *)
Lemma pace_inv_same w w' :
  pace_inv w ->
  history w' = history w -> last_response_time w' = last_response_time w ->
  rate_limit_delay w' = rate_limit_delay w -> clock w' = clock w ->
  waiting_ok w' ->
  pace_inv w'.
Proof.
  intros [H1 H2 H3 H4] Hh Hl Hd Hc Hw.
  split; rewrite ?Hh, ?Hl, ?Hd, ?Hc; assumption.
Qed.

Lemma pace_inv_step w w' :
  pace_inv w -> lock_inv w -> step w w' -> pace_inv w'.
Proof.
  intros Hinv Hlock Hstep.
  destruct Hstep as [w dt Hdt | w a m | w i t Hi Hpc Hfree
                    | w i t u Hi Hpc Hu | w i t post wr Hi Hpc
                    | w i t r tts Hi Hpc | w p' Hp].
  - destruct Hinv as [H1 H2 H3 H4]. split; simpl; try assumption.
    apply (completions_le_mono _ _ _ H2). lra.
  - apply (pace_inv_same w); try reflexivity; [exact Hinv|].
    intros j tj u Hj Hjpc. simpl in Hj.
    apply lookup_app_Some in Hj as [Hj | [_ Hj]].
    + exact (pace_wait w Hinv j tj u Hj Hjpc).
    + destruct (j - length (tasks w)) as [|n]; simpl in Hj; [|discriminate].
      injection Hj as <-. discriminate Hjpc.
  - unfold enter. simpl.
    assert (Hent : pace_inv (with_mark i Entered (with_lock true w))).
    { destruct Hinv as [H1 H2 H3 H4]. split; simpl.
      - apply completions_le_snoc; [exact H1 | discriminate].
      - apply completions_le_snoc; [exact H2 | discriminate].
      - exact H3.
      - apply paced_snoc_other; [exact H4 | discriminate]. }
    destruct (Qltb _ _) eqn:E.
    + destruct Hent as [H1 H2 H3 H4]. split; simpl; try assumption.
      eapply (waiting_ok_move _ _ i t _ H3); simpl; try reflexivity.
      intros u [= <-]. lra.
    + apply pace_inv_call; [exact Hent|]. simpl.
      apply Qltb_false in E. lra.
  - apply pace_inv_call; [exact Hinv|].
    pose proof (pace_wait w Hinv i t u Hi Hpc). lra.
  - assert (Hin : inside t = true) by (apply inside_of_pc; eauto).
    unfold generated.
    destruct (call_deepseek_api _ _ _) as [l [[[|c s]|]|e]].
    + apply pace_inv_finish; auto.
      apply (pace_inv_same w); try reflexivity; [exact Hinv|].
      exact (pace_wait w Hinv).
    + apply (pace_inv_same w); try (destruct wr; reflexivity);
        [exact Hinv|].
      eapply (waiting_ok_move w _ i t _ (pace_wait w Hinv));
        try (destruct wr; reflexivity).
      discriminate.
    + apply pace_inv_finish; auto.
      apply (pace_inv_same w); try reflexivity; [exact Hinv|].
      exact (pace_wait w Hinv).
    + apply (pace_inv_same w); try reflexivity; [exact Hinv|].
      eapply (waiting_ok_move w _ i t _ (pace_wait w Hinv));
        try reflexivity.
      discriminate.
  - assert (Hin : inside t = true) by (apply inside_of_pc; eauto).
    unfold synthesized.
    destruct tts as [[a|]|e]; apply pace_inv_finish; auto;
      apply (pace_inv_same w); try reflexivity; try exact Hinv;
      exact (pace_wait w Hinv).
  - apply (pace_inv_same w); try reflexivity; [exact Hinv|].
    exact (pace_wait w Hinv).
Qed.

Lemma delay_step w w' : step w w' -> rate_limit_delay w' = rate_limit_delay w.
Proof.
  intros Hstep.
  destruct Hstep as [w dt Hdt | w a m | w i t Hi Hpc Hfree
                    | w i t u Hi Hpc Hu | w i t post wr Hi Hpc
                    | w i t r tts Hi Hpc | w p' Hp]; try reflexivity.
  - unfold enter. destruct (Qltb _ _); reflexivity.
  - unfold generated. destruct (call_deepseek_api _ _ _) as [l [[[|c s]|]|e]];
      try reflexivity.
    destruct wr; reflexivity.
  - unfold synthesized. destruct tts as [[a|]|e]; reflexivity.
Qed.

Lemma pace_inv_reachable w0 w :
  fresh w0 -> reachable w0 w ->
  pace_inv w /\ lock_inv w /\ rate_limit_delay w = rate_limit_delay w0.
Proof.
  intros Hfresh Hreach. revert w Hreach. apply rtc_ind_r.
  - split; [apply fresh_pace_inv, Hfresh|].
    split; [apply fresh_lock_inv, Hfresh | reflexivity].
  - intros w1 w2 _ Hstep (Hp & Hl & Hd). split; [|split].
    + exact (pace_inv_step w1 w2 Hp Hl Hstep).
    + exact (lock_inv_step w1 w2 Hl Hstep).
    + rewrite (delay_step w1 w2 Hstep). exact Hd.
Qed.

End PaceFacts.

(** ** Orchestrator: concrete runs *)

Module RunFacts.

Import Audio Pipeline Runs.

Lemma fresh_two_in_flight : fresh two_in_flight.
Proof. repeat split. repeat constructor. Qed.

Lemma fresh_warm : fresh warm.
Proof. repeat split. repeat constructor. Qed.

Lemma reach_alice_generating : reachable two_in_flight alice_generating.
Proof.
  eapply rtc_l; [|apply rtc_refl].
  apply step_enter; reflexivity.
Qed.

Lemma reach_alice_synthesizing : reachable two_in_flight alice_synthesizing.
Proof.
  eapply rtc_r; [eapply rtc_r; [apply reach_alice_generating|] |].
  - apply (step_tick alice_generating (1 # 4)). discriminate.
  - apply step_generated; reflexivity.
Qed.

Lemma reach_alice_finished : reachable two_in_flight alice_finished.
Proof.
  eapply rtc_r; [eapply rtc_r; [apply reach_alice_synthesizing|] |].
  - apply (step_tick alice_synthesizing (1 # 4)). discriminate.
  - apply (step_synthesized _ 0 _ reply); reflexivity.
Qed.

Lemma reach_bob_entered : reachable two_in_flight bob_entered.
Proof.
  eapply rtc_r; [apply reach_alice_finished|].
  apply step_enter; reflexivity.
Qed.

Lemma reach_bob_called : reachable two_in_flight bob_called.
Proof.
  eapply rtc_r; [eapply rtc_r; [apply reach_bob_entered|] |].
  - apply (step_tick bob_entered 1). discriminate.
  - apply (step_wake _ 1 _ bob_until); [reflexivity | reflexivity |].
    vm_compute. discriminate.
Qed.

Lemma reach_warm_finished : reachable warm warm_finished.
Proof.
  eapply rtc_l; [apply (step_enter warm 0 alice); reflexivity|].
  eapply rtc_l; [apply (step_generated _ 0 (at_ Generating alice) answers Written);
                 reflexivity|].
  eapply rtc_l; [|apply rtc_refl].
  apply (step_synthesized _ 0 (at_ (Synthesizing reply) alice) reply);
    reflexivity.
Qed.

End RunFacts.

(** C1, on the code: [process_message] never reads or writes
    [self.response_cache]. Every task that has finished went through
    [_call_deepseek_api], and the cache is as it was at the start, whether
    or not it held a similar message. *)
Theorem generation_ignores_cache (w0 w : Pipeline.vtuber) (i : nat)
  (t : Pipeline.task) :
  fresh w0 -> Pipeline.reachable w0 w ->
  Pipeline.tasks w !! i = Some t -> Pipeline.at_pc t = Pipeline.Finished ->
  Pipeline.response_cache w = Pipeline.response_cache w0 /\
  called_api (Pipeline.log w) t.
Proof.
  intros Hfresh Hreach Hi Hpc.
  destruct (bypass_reachable w0 w Hfresh Hreach) as [Hc Hinv].
  split; [exact Hc|]. apply (Hinv i t Hi). left. exact Hpc.
Qed.

(** The message of the task is in the cache, word for word, and [get] would
    return its answer; the run calls the service all the same. *)
Lemma generation_ignores_cache_witness :
  get ascii_lower Runs.warm_cache (of_string "hello world")
  = Ok (Some (of_string "Hi!")) /\
  Pipeline.response_cache Runs.warm_finished = Runs.warm_cache /\
  called_api (Pipeline.log Runs.warm_finished)
    (Runs.at_ Pipeline.Finished Runs.alice).
Proof.
  split; [vm_compute; reflexivity|].
  apply (generation_ignores_cache Runs.warm Runs.warm_finished 0
           (Runs.at_ Pipeline.Finished Runs.alice)).
  - exact RunFacts.fresh_warm.
  - exact RunFacts.reach_warm_finished.
  - reflexivity.
  - reflexivity.
Defined.

(** C3, as the claim states it: while a task is in speech synthesis no other
    task is past the lock, and no other task is the one that took the lock
    last. *)
Lemma later_task_cannot_pass_gate :
  ~ (exists w i j t response,
        Pipeline.reachable Runs.two_in_flight w /\
        Pipeline.tasks w !! i = Some t /\
        Pipeline.at_pc t = Pipeline.Synthesizing response /\
        j <> i /\
        (Pipeline.last_entered (Pipeline.history w) = Some j \/
         exists tj, Pipeline.tasks w !! j = Some tj /\
                    Pipeline.inside tj = true)).
Proof.
  intros (w & i & j & t & response & Hreach & Hi & Hpc & Hne & Hlater).
  pose proof (lock_inv_reachable _ _ RunFacts.fresh_two_in_flight Hreach)
    as Hinv.
  destruct (Hinv i t Hi) as [_ Hlast].
  - unfold Pipeline.inside. rewrite Hpc. reflexivity.
  - destruct Hlater as [Hlast' | (tj & Hj & Hjin)]; [congruence|].
    destruct (Hinv j tj Hj Hjin) as [_ Hlast']. congruence.
Qed.

(** C3 (amended): the processing lock spans the whole of [process_message].
    While a task is in speech synthesis the lock is held, that task is the
    last one that took it, and every other task is still waiting for the
    lock or has already finished: the tasks go through the gate, the
    generation, the subtitle and the synthesis one at a time. *)
Theorem lock_held_through_synthesis (w0 w : Pipeline.vtuber) (i : nat)
  (t : Pipeline.task) (response : str) :
  fresh w0 -> Pipeline.reachable w0 w ->
  Pipeline.tasks w !! i = Some t ->
  Pipeline.at_pc t = Pipeline.Synthesizing response ->
  Pipeline.processing_lock w = true /\
  Pipeline.last_entered (Pipeline.history w) = Some i /\
  (forall j tj, j <> i -> Pipeline.tasks w !! j = Some tj ->
                Pipeline.at_pc tj = Pipeline.Queued \/
                Pipeline.at_pc tj = Pipeline.Finished).
Proof.
  intros Hfresh Hreach Hi Hpc.
  pose proof (lock_inv_reachable _ _ Hfresh Hreach) as Hinv.
  assert (Hin : Pipeline.inside t = true)
    by (unfold Pipeline.inside; rewrite Hpc; reflexivity).
  destruct (Hinv i t Hi Hin) as [Hlock Hlast].
  repeat split; [exact Hlock | exact Hlast |].
  intros j tj Hne Hj.
  destruct (Pipeline.inside tj) eqn:Hjin.
  - destruct (Hinv j tj Hj Hjin) as [_ Hlast']. congruence.
  - unfold Pipeline.inside in Hjin.
    destruct (Pipeline.at_pc tj); try discriminate Hjin; auto.
Qed.

Lemma lock_held_through_synthesis_witness :
  Pipeline.processing_lock Runs.alice_synthesizing = true /\
  Pipeline.last_entered (Pipeline.history Runs.alice_synthesizing) = Some 0 /\
  (forall j tj, j <> 0 ->
                Pipeline.tasks Runs.alice_synthesizing !! j = Some tj ->
                Pipeline.at_pc tj = Pipeline.Queued \/
                Pipeline.at_pc tj = Pipeline.Finished).
Proof.
  apply (lock_held_through_synthesis Runs.two_in_flight
           Runs.alice_synthesizing 0
           (Runs.at_ (Pipeline.Synthesizing Runs.reply) Runs.alice)
           Runs.reply).
  - exact RunFacts.fresh_two_in_flight.
  - exact RunFacts.reach_alice_synthesizing.
  - reflexivity.
  - reflexivity.
Defined.

(** C4, as the claim states it: the second task takes the lock half a second
    after the first one did, the delay being one second. *)
Lemma entry_gap_below_delay :
  ~ (forall w p q i j e1 e2,
        Pipeline.reachable Runs.two_in_flight w ->
        Pipeline.history w !! p = Some (i, Pipeline.Entered, e1) ->
        Pipeline.history w !! q = Some (j, Pipeline.Entered, e2) ->
        p < q ->
        (Pipeline.rate_limit_delay w <= e2 - e1)%Q).
Proof.
  intros H.
  specialize (H Runs.bob_entered 0 3 0 1 1000%Q
                (Pipeline.clock Runs.alice_finished)
                RunFacts.reach_bob_entered eq_refl eq_refl).
  assert (Hlt : 0 < 3) by lia. specialize (H Hlt).
  vm_compute in H. apply H. reflexivity.
Qed.

(** C4 (amended): the wait is inside the critical section. A task takes the
    lock as soon as it is free, whatever the time since the last completion,
    and then sleeps; its call of the generation service does not start until
    [rate_limit_delay] has elapsed since the completion timestamp of every
    task that completed before it. *)
Theorem call_waits_for_delay (w0 w : Pipeline.vtuber) (p q i j : nat)
  (c a : Q) :
  fresh w0 -> Pipeline.reachable w0 w ->
  Pipeline.history w !! p = Some (i, Pipeline.Completed, c) ->
  Pipeline.history w !! q = Some (j, Pipeline.Called, a) ->
  p < q ->
  (c + Pipeline.rate_limit_delay w0 <= a)%Q.
Proof.
  intros Hfresh Hreach Hp Hq Hpq.
  destruct (pace_inv_reachable w0 w Hfresh Hreach) as (Hpace & _ & Hd).
  rewrite <- Hd. exact (pace_calls w Hpace p q i j c a Hp Hq Hpq).
Qed.

Lemma call_waits_for_delay_witness :
  (Pipeline.clock Runs.alice_finished
   + Pipeline.rate_limit_delay Runs.two_in_flight
   <= Pipeline.clock Runs.bob_called)%Q.
Proof.
  apply (call_waits_for_delay Runs.two_in_flight Runs.bob_called 2 4 0 1).
  - exact RunFacts.fresh_two_in_flight.
  - exact RunFacts.reach_bob_called.
  - reflexivity.
  - reflexivity.
  - lia.
Defined.

(** ** AudioSink: [stop] on a full queue *)

Module StopFacts.

Import Audio StopRun.

Lemma plays_reachable n p : rtc step p (Nat.iter n (play buffer) p).
Proof.
  induction n as [|n IH]; simpl; [apply rtc_refl|].
  eapply rtc_r; [exact IH | apply step_play].
Qed.

Lemma reach_deadlocked : rtc step (new_player 10) deadlocked.
Proof.
  eapply rtc_l; [apply (step_play _ buffer)|].
  eapply rtc_l; [apply step_thread, consumer_continue; reflexivity|].
  eapply rtc_l; [apply step_thread,
                   (consumer_get_buffer _ buffer []); reflexivity|].
  eapply rtc_trans; [apply (plays_reachable 10)|].
  eapply rtc_l; [apply step_thread, stop_set_flag; reflexivity|].
  eapply rtc_l; [apply step_thread, (consumer_played _ buffer); reflexivity|].
  eapply rtc_l; [apply step_thread, consumer_exit; reflexivity|].
  vm_compute. apply rtc_refl.
Qed.

Lemma stuck_step p p' : stuck p -> step p p' -> stuck p'.
Proof.
  intros (Hc & Hf & Hs) Hstep. destruct Hstep as [p p' Ht | p a].
  - destruct Ht; congruence.
  - unfold play. rewrite Hf. repeat split; assumption.
Qed.

Lemma stuck_forever p p' : stuck p -> rtc step p p' -> stuck p'.
Proof.
  intros Hp Hreach. revert p' Hreach. apply rtc_ind_r; [exact Hp|].
  intros p1 p2 _ Hstep IH. exact (stuck_step p1 p2 IH Hstep).
Qed.

End StopFacts.

(** C7, on the code: a player with the default bound of ten buffers, ten
    buffers in its queue and one being played. [stop] is called; its
    [put(None)] blocks on the full queue; the thread finishes the buffer,
    sees [should_stop] and leaves without taking anything; from then on, in
    every continuation, [stop] is still in its [put]. *)
Theorem stop_blocks_on_full_queue :
  exists p,
    rtc Audio.step (Audio.new_player 10) p /\
    length (Audio.audio_queue p) = 10 /\
    Audio.consumer p = Audio.Exited /\
    forall p', rtc Audio.step p p' -> Audio.stopper p' = Audio.AtPut.
Proof.
  exists StopRun.deadlocked. split; [exact StopFacts.reach_deadlocked|].
  split; [reflexivity|]. split; [reflexivity|].
  intros p' Hreach.
  assert (H : StopRun.stuck StopRun.deadlocked)
    by (repeat split; reflexivity).
  destruct (StopFacts.stuck_forever _ _ H Hreach) as (_ & _ & Hs). exact Hs.
Qed.

(** * Further properties *)

(** ** Sanitizer *)

Section SanitizerMore.

Implicit Types (t result : str) (sentences : list str).

Lemma rstrip_fixed_last t c :
  rstrip t = t -> last t = Some c -> is_space c = false.
Proof.
  induction t as [|d t IH]; [discriminate|].
  simpl rstrip. destruct t as [|e t'].
  - simpl. destruct (is_space d) eqn:E; [discriminate|].
    intros _ [= <-]. exact E.
  - destruct (rstrip (e :: t')) as [|x r'] eqn:Hr.
    + destruct (is_space d); discriminate.
    + intros [= -> ->] Hlast. apply IH; [reflexivity|].
      rewrite last_cons in Hlast.
      destruct (last (e :: t')) eqn:El; [exact Hlast|].
      apply last_None in El. discriminate El.
Qed.

Lemma strip_fixed_ends t :
  strip t = t ->
  left_clean t /\ (forall c, last t = Some c -> is_space c = false).
Proof.
  intros H. split.
  - rewrite <- H. unfold strip. apply rstrip_left_clean, lstrip_left_clean.
  - intros c Hc. apply (rstrip_fixed_last t c); [|exact Hc].
    rewrite <- H at 2. unfold strip.
    rewrite <- (rstrip_idem (lstrip t)). fold (strip t). rewrite H.
    reflexivity.
Qed.

Lemma accumulate_spaced max_len sentences result :
  exists k,
    k <= length sentences /\
    accumulate max_len result sentences
    = result ++ spaced (take k sentences) /\
    (k = length sentences \/
     exists s, sentences !! k = Some s /\
               (max_len
                < Z.of_nat (length ((result ++ spaced (take k sentences)) ++ s)))%Z).
Proof.
  revert result. induction sentences as [|s sentences IH]; intros result.
  - exists 0. simpl. rewrite app_nil_r. repeat split; auto.
  - simpl accumulate.
    destruct (Z.of_nat (length (result ++ s)) <=? max_len)%Z eqn:E.
    + destruct (IH (result ++ s ++ [space])) as (k & Hk & Heq & Hmax).
      exists (S k). split; [simpl; lia|]. split.
      * rewrite Heq. unfold spaced. simpl. rewrite <- !app_assoc.
        reflexivity.
      * destruct Hmax as [-> | (s' & Hs' & Hlt)]; [left; reflexivity|].
        right. exists s'. split; [exact Hs'|].
        unfold spaced in *. simpl. rewrite <- !app_assoc in *. exact Hlt.
    + exists 0. split; [simpl; lia|]. split.
      * unfold spaced. simpl. rewrite app_nil_r. reflexivity.
      * right. exists s. split; [reflexivity|].
        unfold spaced. simpl. rewrite app_nil_r. apply Z.leb_gt, E.
Qed.

Lemma re_split_length prev k piece t :
  length (concat (re_split prev k piece t)) <= length piece + length t.
Proof.
  revert prev k piece. induction t as [|c t IH]; intros prev k piece; simpl.
  - rewrite app_nil_r. lia.
  - assert (Hsnoc : length (concat (re_split (Some c) 0 (piece ++ [c]) t))
                    <= length piece + S (length t)).
    { etransitivity; [apply IH|]. rewrite length_app. simpl. lia. }
    destruct k as [|k].
    + destruct (sep_span prev (c :: t)) as [[|j]|]; try exact Hsnoc.
      simpl. rewrite length_app.
      specialize (IH (Some c) j []). simpl in IH. lia.
    + specialize (IH (Some c) k piece). lia.
Qed.

Lemma no_colon_no_prefix t :
  Forall (fun c => (c =? colon)%N = false) t -> prefix_span t = None.
Proof.
  intros H. unfold prefix_span.
  assert (Hs : span_len (fun c => negb (c =? colon)%N) t = length t).
  { induction H as [|c t Hc _ IH]; [reflexivity|].
    simpl. rewrite Hc. simpl. rewrite IH. reflexivity. }
  cbv zeta. rewrite Hs. destruct (length t) as [|n] eqn:E; [reflexivity|].
  rewrite <- E, drop_all. reflexivity.
Qed.

End SanitizerMore.

(** X1: the output of the sanitizer is never longer than a maximum length
    that is not negative. *)
Theorem clean_length_bound (max_len : Z) (text : str) :
  (0 <= max_len)%Z ->
  (Z.of_nat (length (clean_response max_len text)) <= max_len)%Z.
Proof.
  intros H.
  destruct (cleaned_length _ _ (clean_response_cleaned max_len text))
    as [-> | Hle]; [simpl; lia | exact Hle].
Qed.

Lemma clean_length_bound_witness :
  (Z.of_nat (length (clean_response 40 nova_line)) <= 40)%Z.
Proof. apply (clean_length_bound 40 nova_line). lia. Defined.

(** X2: the output of the sanitizer holds no code point above the basic
    plane and at most one asterisk, so no asterisk span that the sanitizer
    would still delete; it neither begins nor ends with white space. *)
Theorem clean_output_shape (max_len : Z) (text : str) :
  let out := clean_response max_len text in
  Forall (fun c => is_astral c = false) out /\
  count_star out <= 1 /\
  sub_delete star_span 0 out = out /\
  left_clean out /\
  (forall c, last out = Some c -> is_space c = false).
Proof.
  intros out.
  destruct (clean_response_cleaned max_len text) as [H1 H2 H3 _].
  fold out in H1, H2, H3.
  split; [exact H1|]. split; [exact H2|].
  split; [apply remove_stars_noop, H2|].
  apply strip_fixed_ends, H3.
Qed.

(** X3: a text that is too long is cut between sentences. The output is the
    first [k] sentences of the prepared text, joined by single blanks, and
    [k] is as large as the loop allows: either all the sentences were taken,
    or the next one would have passed the maximum. *)
Theorem clean_truncates_at_sentence (max_len : Z) (text : str) :
  (max_len < Z.of_nat (length (prepared text)))%Z ->
  exists k,
    clean_response max_len text
    = strip (spaced (take k (split_sentences (prepared text)))) /\
    (k = length (split_sentences (prepared text)) \/
     exists s,
       split_sentences (prepared text) !! k = Some s /\
       (max_len
        < Z.of_nat
            (length (spaced (take k (split_sentences (prepared text))) ++ s)))%Z).
Proof.
  intros H. unfold clean_response. fold (prepared text).
  apply Z.ltb_lt in H. rewrite H.
  destruct (accumulate_spaced max_len (split_sentences (prepared text)) [])
    as (k & _ & Heq & Hmax).
  exists k. split; [rewrite Heq; reflexivity | exact Hmax].
Qed.

Lemma clean_truncates_at_sentence_witness :
  exists k,
    clean_response 30 three_sentences
    = strip (spaced (take k (split_sentences (prepared three_sentences)))) /\
    (k = length (split_sentences (prepared three_sentences)) \/
     exists s,
       split_sentences (prepared three_sentences) !! k = Some s /\
       (30 < Z.of_nat
               (length
                  (spaced (take k (split_sentences (prepared three_sentences)))
                   ++ s)))%Z).
Proof.
  apply (clean_truncates_at_sentence 30 three_sentences).
  vm_compute. reflexivity.
Defined.

(** X4: when the first sentence of the prepared text is by itself longer
    than the maximum, the sanitizer returns the empty text. *)
Theorem clean_drops_long_first_sentence (max_len : Z) (text : str)
  (s : str) (rest : list str) :
  split_sentences (prepared text) = s :: rest ->
  (max_len < Z.of_nat (length s))%Z ->
  clean_response max_len text = [].
Proof.
  intros Hs Hlen. unfold clean_response. fold (prepared text).
  assert (Hle : length s <= length (prepared text)).
  { pose proof (re_split_length None 0 [] (prepared text)) as H.
    fold (split_sentences (prepared text)) in H. rewrite Hs in H.
    simpl in H. rewrite length_app in H. lia. }
  assert (Hlt : (max_len <? Z.of_nat (length (prepared text)))%Z = true)
    by (apply Z.ltb_lt; lia).
  rewrite Hlt, Hs. simpl.
  assert (Hno : (Z.of_nat (length s) <=? max_len)%Z = false)
    by (apply Z.leb_gt; lia).
  rewrite Hno. reflexivity.
Qed.

Lemma clean_drops_long_first_sentence_witness :
  clean_response 20 one_long_word = [].
Proof.
  apply (clean_drops_long_first_sentence 20 one_long_word one_long_word []).
  - vm_compute. reflexivity.
  - vm_compute. reflexivity.
Defined.

(** X5: a text within the maximum length, without code points above the
    basic plane, without asterisk and without colon, that neither begins
    nor ends with white space, is returned as it is. *)
Theorem clean_keeps_clean_text (max_len : Z) (text : str) :
  Forall (fun c => is_astral c = false) text ->
  count_star text = 0 ->
  Forall (fun c => (c =? colon)%N = false) text ->
  strip text = text ->
  (Z.of_nat (length text) <= max_len)%Z ->
  clean_response max_len text = text.
Proof.
  intros H1 H2 H3 H4 H5. apply clean_response_on_cleaned.
  - split; [exact H1 | lia | exact H4 | right; exact H5].
  - apply no_colon_no_prefix, H3.
Qed.

Lemma clean_keeps_clean_text_witness :
  clean_response 40 (of_string "I'm  happy to see you!")
  = of_string "I'm  happy to see you!".
Proof.
  apply (clean_keeps_clean_text 40 (of_string "I'm  happy to see you!")).
  - repeat constructor.
  - reflexivity.
  - repeat constructor.
  - reflexivity.
  - vm_compute. discriminate.
Defined.

(** ** ResponseCache *)

Section SetFacts.

Implicit Types X Y : gset str.

Lemma intersection_swap X Y : X ∩ Y = Y ∩ X.
Proof. apply (comm_L _). Qed.

Lemma union_swap X Y : X ∪ Y = Y ∪ X.
Proof. apply (comm_L _). Qed.

Lemma intersection_self X : X ∩ X = X.
Proof. apply (idemp_L _). Qed.

Lemma union_self X : X ∪ X = X.
Proof. apply (idemp_L _). Qed.

Lemma intersection_size_le_union X Y : size (X ∩ Y) <= size (X ∪ Y).
Proof.
  apply subseteq_size. intros x Hx.
  apply elem_of_intersection in Hx as [Hx _].
  apply elem_of_union. left. exact Hx.
Qed.

Lemma size_zero_empty X : size X = 0 -> X = ∅.
Proof. intros H. apply leibniz_equiv, size_empty_inv, H. Qed.

End SetFacts.

Section DictMore.

Implicit Types (d : dict) (k v q r : str).

Lemma key_eqb_eq k q : key_eqb k q = true <-> k = q.
Proof. unfold key_eqb. apply bool_decide_eq_true. Qed.

Lemma dict_set_fresh q r d :
  ~ In q (map fst d) -> dict_set q r d = d ++ [(q, r)].
Proof.
  induction d as [|[k v] d IH]; simpl; [reflexivity|].
  intros H. destruct (key_eqb k q) eqn:E.
  - apply key_eqb_eq in E. contradiction H. left. exact E.
  - f_equal. apply IH. intros Hin. apply H. right. exact Hin.
Qed.

Lemma dict_set_present q r d :
  In q (map fst d) ->
  map fst (dict_set q r d) = map fst d /\
  length (dict_set q r d) = length d.
Proof.
  induction d as [|[k v] d IH]; simpl; [intros []|].
  intros H. destruct (key_eqb k q) eqn:E.
  - apply key_eqb_eq in E. subst k. split; reflexivity.
  - destruct H as [H | H]; [apply key_eqb_eq in H; congruence|].
    destruct (IH H) as [Hk Hl]. simpl. rewrite Hk, Hl. split; reflexivity.
Qed.

Lemma dict_set_has q r d : In (q, r) (dict_set q r d).
Proof.
  induction d as [|[k v] d IH]; simpl; [left; reflexivity|].
  destruct (key_eqb k q); [left; reflexivity | right; exact IH].
Qed.

Lemma dict_set_keeps q r d k v :
  k <> q -> In (k, v) d -> In (k, v) (dict_set q r d).
Proof.
  intros Hne. induction d as [|[k' v'] d IH]; simpl; [intros []|].
  intros [[= -> ->] | H].
  - destruct (key_eqb k q) eqn:E;
      [apply key_eqb_eq in E; contradiction | left; reflexivity].
  - destruct (key_eqb k' q); right; [exact H | apply IH, H].
Qed.

End DictMore.

(** X9: eviction is first in, first out. When the cache is at its capacity
    and the query is not a key of the entries after the oldest one, [add]
    removes the oldest entry and puts the new pair last. *)
Theorem add_evicts_oldest (rc : ResponseCache) (query response : str)
  (oldest : str * str) (others : dict) :
  (cache_size rc <= Z.of_nat (length (cache rc)))%Z ->
  cache rc = oldest :: others ->
  ~ In query (map fst others) ->
  add rc query response
  = Ok (with_cache rc (others ++ [(query, response)])).
Proof.
  intros Hfull Hc Hnew. unfold add.
  apply Z.leb_le in Hfull. rewrite Hfull, Hc.
  destruct oldest as [k v]. simpl. rewrite key_eqb_refl. simpl.
  rewrite (dict_set_fresh _ _ _ Hnew). reflexivity.
Qed.

Lemma add_evicts_oldest_witness :
  add full_small_cache (of_string "bye") (of_string "see you")
  = Ok (with_cache full_small_cache
          ([(of_string "how are you", of_string "fine")]
           ++ [(of_string "bye", of_string "see you")])).
Proof.
  apply (add_evicts_oldest full_small_cache (of_string "bye")
           (of_string "see you") (of_string "hello", of_string "hi")).
  - vm_compute. discriminate.
  - reflexivity.
  - vm_compute. intros [H | []]. discriminate H.
Defined.

(** X10: below its capacity [add] evicts nothing: it succeeds, the new pair
    is in the cache, and every entry under another key is still there. *)
Theorem add_below_capacity_keeps_entries (rc : ResponseCache)
  (query response : str) :
  (Z.of_nat (length (cache rc)) < cache_size rc)%Z ->
  exists rc',
    add rc query response = Ok rc' /\
    In (query, response) (cache rc') /\
    (forall k v, k <> query -> In (k, v) (cache rc) -> In (k, v) (cache rc')) /\
    length (cache rc) <= length (cache rc').
Proof.
  intros H. unfold add. apply Z.leb_gt in H. rewrite H. simpl.
  eexists. split; [reflexivity|]. simpl. split; [apply dict_set_has|].
  split; [intros k v Hne Hin; apply dict_set_keeps; assumption|].
  destruct (in_dec (fun a b : str => decide (a = b)) query
              (map fst (cache rc)))
    as [Hin | Hnot].
  - destruct (dict_set_present query response _ Hin) as [_ ->]. lia.
  - rewrite (dict_set_fresh _ _ _ Hnot), length_app. lia.
Qed.

Lemma add_below_capacity_keeps_entries_witness :
  exists rc',
    add blank_cache (of_string "hello") (of_string "hi") = Ok rc' /\
    In (of_string "hello", of_string "hi") (cache rc') /\
    (forall k v, k <> of_string "hello" ->
                 In (k, v) (cache blank_cache) -> In (k, v) (cache rc')) /\
    length (cache blank_cache) <= length (cache rc').
Proof.
  apply (add_below_capacity_keeps_entries blank_cache (of_string "hello")
           (of_string "hi")).
  vm_compute. reflexivity.
Defined.

(** X11: [add] raises in one case only: the cache is empty and its capacity
    is zero or negative, and then the exception is the [StopIteration] of
    [next(iter(...))]. It never raises [KeyError]. *)
Theorem add_raises_only_without_capacity (rc : ResponseCache)
  (query response : str) (e : exn) :
  add rc query response = Raise e <->
  e = StopIteration /\ cache rc = [] /\ (cache_size rc <= 0)%Z.
Proof.
  unfold add. split.
  - destruct (cache_size rc <=? Z.of_nat (length (cache rc)))%Z eqn:E;
      [|discriminate].
    destruct (cache rc) as [|[k v] d]; simpl.
    + intros [= <-]. apply Z.leb_le in E. simpl in E. auto.
    + rewrite key_eqb_refl. discriminate.
  - intros (-> & Hc & Hs). rewrite Hc.
    change (Z.of_nat (length (@nil (str * str)))) with 0%Z.
    apply Z.leb_le in Hs. rewrite Hs. reflexivity.
Qed.

(** X12: at its capacity [add] evicts the oldest entry even when the query
    is already a key of a later entry, whose response it then replaces in
    place: the cache ends one entry short of what it held. *)
Theorem add_known_key_at_capacity_shrinks (rc : ResponseCache)
  (query response : str) (oldest : str * str) (others : dict) :
  (cache_size rc <= Z.of_nat (length (cache rc)))%Z ->
  cache rc = oldest :: others ->
  In query (map fst others) ->
  exists rc',
    add rc query response = Ok rc' /\
    map fst (cache rc') = map fst others /\
    In (query, response) (cache rc') /\
    S (length (cache rc')) = length (cache rc).
Proof.
  intros Hfull Hc Hin. unfold add.
  apply Z.leb_le in Hfull. rewrite Hfull, Hc.
  destruct oldest as [k v]. simpl. rewrite key_eqb_refl. simpl.
  eexists. split; [reflexivity|]. simpl.
  destruct (dict_set_present query response others Hin) as [Hk Hl].
  split; [exact Hk|]. split; [apply dict_set_has|]. rewrite Hl. reflexivity.
Qed.

Lemma add_known_key_at_capacity_shrinks_witness :
  exists rc',
    add full_small_cache (of_string "how are you") (of_string "great")
    = Ok rc' /\
    map fst (cache rc') = map fst [(of_string "how are you", of_string "fine")] /\
    In (of_string "how are you", of_string "great") (cache rc') /\
    S (length (cache rc')) = length (cache full_small_cache).
Proof.
  apply (add_known_key_at_capacity_shrinks full_small_cache
           (of_string "how are you") (of_string "great")
           (of_string "hello", of_string "hi")).
  - vm_compute. discriminate.
  - reflexivity.
  - left. reflexivity.
Defined.

Section SimilarityMore.

Variable lower : str -> str.

Implicit Types (s q r : str) (d : dict) (th : Q).

Lemma ratio_bounds (a n : nat) :
  a <= S n -> (0 <= Z.of_nat a # Pos.of_nat (S n))%Q /\
              (Z.of_nat a # Pos.of_nat (S n) <= 1)%Q.
Proof.
  intros H. unfold Qle. simpl Qnum. simpl Qden. lia.
Qed.

Lemma self_similarity s :
  words lower s <> ∅ ->
  exists sim, compute_similarity lower s s = Ok sim /\ (sim == 1)%Q.
Proof.
  intros H. unfold compute_similarity.
  rewrite intersection_self, union_self.
  destruct (size (words lower s)) as [|n] eqn:E.
  - contradiction H. apply size_zero_empty, E.
  - simpl. eexists. split; [reflexivity|].
    unfold Qeq. simpl Qnum. simpl Qden. lia.
Qed.

Lemma get_items_none_misses th q d :
  get_items lower th q d = Ok None -> misses lower th q d.
Proof.
  induction d as [|[k v] d IH]; simpl; [constructor|].
  destruct (compute_similarity lower q k) as [sim|e] eqn:E; simpl;
    [|discriminate].
  destruct (Qgtb sim th) eqn:G; [discriminate|].
  intros H. constructor; [|apply IH, H].
  exists sim. simpl. split; [exact E | exact G].
Qed.

Lemma get_items_skip_misses th q d rest :
  misses lower th q d ->
  get_items lower th q (d ++ rest) = get_items lower th q rest.
Proof.
  induction 1 as [|[k v] d (sim & E & G) _ IH]; [reflexivity|].
  simpl in *. rewrite E. simpl. rewrite G. exact IH.
Qed.

Lemma misses_not_key th q d :
  (th < 1)%Q -> words lower q <> ∅ -> misses lower th q d -> ~ In q (map fst d).
Proof.
  intros Hth Hq Hm Hin. apply in_map_iff in Hin as ([k v] & Hk & Hin).
  simpl in Hk. subst k. unfold misses in Hm. rewrite Forall_forall in Hm.
  apply list_elem_of_In in Hin.
  destruct (Hm _ Hin) as (sim & E & G). simpl in E.
  destruct (self_similarity q Hq) as (sim' & E' & H1).
  rewrite E in E'. injection E' as <-.
  unfold Qgtb in G. apply negb_false_iff, Qle_bool_iff in G.
  rewrite H1 in G. lra.
Qed.

End SimilarityMore.

(** X6: the similarity of two texts does not depend on their order, and it
    lies between 0 and 1. *)
Theorem similarity_symmetric_bounded (lower : str -> str) (s1 s2 : str) :
  exists sim,
    compute_similarity lower s1 s2 = Ok sim /\
    compute_similarity lower s2 s1 = Ok sim /\
    (0 <= sim)%Q /\ (sim <= 1)%Q.
Proof.
  unfold compute_similarity.
  rewrite (intersection_swap (words lower s2)), (union_swap (words lower s2)).
  pose proof (intersection_size_le_union (words lower s1) (words lower s2))
    as Hle.
  destruct (size (words lower s1 ∪ words lower s2)) as [|n]; simpl.
  - exists 0%Q. repeat split; [apply Qle_refl | discriminate].
  - eexists. split; [reflexivity|]. split; [reflexivity|].
    apply ratio_bounds, Hle.
Qed.

(** X7: a text with at least one word has similarity 1 with itself. *)
Theorem similarity_with_itself (lower : str -> str) (s : str) :
  words lower s <> ∅ ->
  exists sim, compute_similarity lower s s = Ok sim /\ (sim == 1)%Q.
Proof. apply self_similarity. Qed.

Lemma hello_has_words : words ascii_lower (of_string "Hello World") <> ∅.
Proof.
  intros H. apply (f_equal size) in H. vm_compute in H. discriminate H.
Qed.

Lemma similarity_with_itself_witness :
  exists sim,
    compute_similarity ascii_lower (of_string "Hello World")
      (of_string "Hello World") = Ok sim /\ (sim == 1)%Q.
Proof.
  apply (similarity_with_itself ascii_lower (of_string "Hello World")).
  exact hello_has_words.
Defined.

(** X8: insert and lookup. With a threshold below 1, when [get] finds
    nothing for a query that has at least one word and [add] then stores a
    response for it, [get] returns that response. *)
Theorem get_after_miss_and_add (lower : str -> str) (rc rc' : ResponseCache)
  (query response : str) :
  (similarity_threshold rc < 1)%Q ->
  words lower query <> ∅ ->
  get lower rc query = Ok None ->
  add rc query response = Ok rc' ->
  get lower rc' query = Ok (Some response).
Proof.
  intros Hth Hq Hmiss Hadd.
  apply get_items_none_misses in Hmiss.
  assert (Hd : exists d, misses lower (similarity_threshold rc) query d /\
                         rc' = with_cache rc (dict_set query response d)).
  { unfold add in Hadd.
    destruct (cache_size rc <=? Z.of_nat (length (cache rc)))%Z.
    - destruct (cache rc) as [|[k v] d]; simpl in Hadd; [discriminate|].
      rewrite key_eqb_refl in Hadd. simpl in Hadd. injection Hadd as <-.
      exists d. split; [|reflexivity].
      unfold misses in *. apply Forall_cons in Hmiss as [_ Hmiss].
      exact Hmiss.
    - simpl in Hadd. injection Hadd as <-.
      exists (cache rc). split; [exact Hmiss | reflexivity]. }
  destruct Hd as (d & Hm & ->). unfold get. simpl.
  rewrite (dict_set_fresh _ _ _ (misses_not_key lower _ _ _ Hth Hq Hm)).
  rewrite (get_items_skip_misses lower _ _ _ _ Hm). simpl.
  destruct (self_similarity lower query Hq) as (sim & -> & H1). simpl.
  assert (Hgt : Qgtb sim (similarity_threshold rc) = true).
  { unfold Qgtb. apply negb_true_iff.
    destruct (Qle_bool sim (similarity_threshold rc)) eqn:E; [|reflexivity].
    apply Qle_bool_iff in E. rewrite H1 in E. lra. }
  rewrite Hgt. reflexivity.
Qed.

Lemma get_after_miss_and_add_witness :
  get ascii_lower
    (with_cache new_cache [(of_string "Hello World", of_string "Hi!")])
    (of_string "Hello World")
  = Ok (Some (of_string "Hi!")).
Proof.
  apply (get_after_miss_and_add ascii_lower new_cache
           (with_cache new_cache [(of_string "Hello World", of_string "Hi!")])
           (of_string "Hello World") (of_string "Hi!")).
  - vm_compute. reflexivity.
  - exact hello_has_words.
  - reflexivity.
  - reflexivity.
Defined.

(** ** GenerationClient *)

Section GenerationMore.

Variables (max_len : Z) (post : nat -> post_result) (m : nat).

(** Attempts that can be retried lead to the attempt after them. *)
Lemma retry_loop_reaches remaining attempt k :
  attempt <= k -> k < attempt + remaining -> attempt + remaining = m ->
  (forall n, attempt <= n < k -> retryable (post n) = true) ->
  exists l l' r,
    retry_loop max_len post m (m - k) k = (l', r) /\
    retry_loop max_len post m remaining attempt = (l ++ l', r) /\
    attempts l = map (fun i => AttemptStarted (i + 1) m
                                 (15 * (Z.of_nat i + 1)))
                     (seq attempt (k - attempt)).
Proof.
  revert attempt. induction remaining as [|remaining IH]; intros attempt;
    [lia|].
  intros Hle Hlt Hm Hretry.
  destruct (Nat.eq_dec attempt k) as [-> | Hne].
  - replace (m - k) with (S remaining) by lia.
    destruct (retry_loop max_len post m (S remaining) k) as [l' r].
    exists [], l', r. rewrite Nat.sub_diag.
    repeat split; simpl; reflexivity.
  - assert (Hr : retryable (post attempt) = true) by (apply Hretry; lia).
    assert (Hnl : (attempt =? m - 1) = false) by (apply Nat.eqb_neq; lia).
    destruct (IH (S attempt)) as (l & l' & r & Hk & Heq & Hatt); try lia.
    { intros n Hn. apply Hretry. lia. }
    replace (k - attempt) with (S (k - S attempt)) by lia.
    simpl retry_loop. simpl seq. simpl map. rewrite <- Hatt.
    destruct (post attempt) as [status text json|e|e|]; try discriminate Hr.
    + simpl in Hr. apply negb_true_iff in Hr. rewrite Hr, Hnl, Heq.
      eexists (_ :: _ :: l), l', r. repeat split. exact Hk.
    + rewrite Hnl, Heq.
      eexists (_ :: _ :: _ :: l), l', r. repeat split. exact Hk.
Qed.

(** The log of a loop that returned ends with the entry of its success. *)
Lemma retry_loop_returned_last remaining attempt l s :
  retry_loop max_len post m remaining attempt = (l, Returned (Some s)) ->
  last l = Some (Workflow GotResponse).
Proof.
  revert attempt l. induction remaining as [|remaining IH]; intros attempt l;
    simpl; [discriminate|].
  destruct (post attempt) as [status text json|e|e|]; try discriminate.
  - destruct (status =? 200)%Z.
    + destruct json; try discriminate. intros [= <- _]. reflexivity.
    + destruct (attempt =? m - 1); [discriminate|].
      destruct (retry_loop max_len post m remaining (S attempt))
        as [l' r'] eqn:Hrec.
      intros [= <- ->]. specialize (IH _ _ Hrec).
      rewrite !last_cons, IH. reflexivity.
  - destruct (attempt =? m - 1); [discriminate|].
    destruct (retry_loop max_len post m remaining (S attempt))
      as [l' r'] eqn:Hrec.
    intros [= <- ->]. specialize (IH _ _ Hrec).
    rewrite !last_cons, IH. reflexivity.
Qed.

End GenerationMore.

Lemma attempts_app l1 l2 : attempts (l1 ++ l2) = attempts l1 ++ attempts l2.
Proof. unfold attempts. apply omap_app. Qed.

Lemma retry_loop_schedule max_len post m remaining attempt :
  exists n,
    n <= remaining /\ (0 < remaining -> 0 < n) /\
    attempts (fst (retry_loop max_len post m remaining attempt))
    = map (fun i => AttemptStarted (i + 1) m (15 * (Z.of_nat i + 1)))
          (seq attempt n).
Proof.
  revert attempt. induction remaining as [|remaining IH]; intros attempt.
  - exists 0. split; [lia|]. split; [lia|]. reflexivity.
  - destruct (IH (S attempt)) as (n & Hn & _ & Hatt).
    assert (Hone : forall l,
               attempts l = [] ->
               exists n0, n0 <= S remaining /\ (0 < S remaining -> 0 < n0) /\
                 attempts (Workflow (AttemptStarted (attempt + 1) m
                                       (15 * (Z.of_nat attempt + 1))) :: l)
                 = map (fun i => AttemptStarted (i + 1) m
                                   (15 * (Z.of_nat i + 1)))
                       (seq attempt n0)).
    { intros l Hl. exists 1. repeat split; [lia | lia |].
      simpl. fold (attempts l). rewrite Hl. reflexivity. }
    simpl retry_loop.
    destruct (post attempt) as [status text json|e|e|].
    + destruct (status =? 200)%Z.
      * destruct json; apply Hone; reflexivity.
      * destruct (attempt =? m - 1); [apply Hone; reflexivity|].
        destruct (retry_loop max_len post m remaining (S attempt))
          as [l r]. simpl in Hatt.
        exists (S n). repeat split; [lia | lia |].
        simpl. fold (attempts l). rewrite Hatt. reflexivity.
    + destruct (attempt =? m - 1); [apply Hone; reflexivity|].
      destruct (retry_loop max_len post m remaining (S attempt))
        as [l r]. simpl in Hatt.
      exists (S n). repeat split; [lia | lia |].
      simpl. fold (attempts l). rewrite Hatt. reflexivity.
    + apply Hone. reflexivity.
    + apply Hone. reflexivity.
Qed.

Lemma call_log_attempts max_len post user_message :
  attempts (fst (call_deepseek_api max_len post user_message))
  = attempts (fst (retry_loop max_len post max_retries max_retries 0)).
Proof.
  unfold call_deepseek_api.
  destruct (retry_loop _ _ _ _ _) as [l [v|e]]; [reflexivity|].
  destruct (is_Exception e); [|reflexivity].
  simpl fst. change (Workflow (StartingCall (take 50 user_message)) :: l ++ _)
    with ([Workflow (StartingCall (take 50 user_message))] ++ l ++
          [Error (ApiCallFailed max_retries e)]).
  rewrite !attempts_app. simpl. rewrite app_nil_r. reflexivity.
Qed.

(** X13: the loop goes on after a timeout and after a response that is not
    a 200. When attempt [k] of the three is the first that meets a 200 with
    content, the call returns that content, sanitized, and has announced
    attempts 1 to [k + 1], with timeouts of 15, 30 and 45 seconds. *)
Theorem retry_until_success (max_len : Z) (post : nat -> post_result)
  (user_message : str) (k : nat) (text content : str) :
  k < 3 ->
  (forall n, n < k -> retryable (post n) = true) ->
  post k = Response 200 text (Content content) ->
  snd (call_deepseek_api max_len post user_message)
  = Returned (Some (clean_response max_len content)) /\
  attempts (fst (call_deepseek_api max_len post user_message))
  = map announced (seq 0 (S k)).
Proof.
  intros Hk Hretry Hpost.
  destruct (retry_loop_reaches max_len post 3 3 0 k)
    as (l & l' & r & Hlast & Heq & Hatt); try lia.
  { intros n Hn. apply Hretry. lia. }
  assert (Hl' : l' = [Workflow (announced k); Workflow GotResponse] /\
                r = Returned (Some (clean_response max_len content))).
  { destruct (3 - k) as [|j] eqn:E; [lia|].
    simpl in Hlast. rewrite Hpost in Hlast. simpl in Hlast.
    injection Hlast as <- <-. split; reflexivity. }
  destruct Hl' as [-> ->].
  rewrite call_log_attempts. unfold call_deepseek_api, max_retries.
  rewrite Heq. split; [reflexivity|].
  simpl fst. rewrite attempts_app, Hatt, Nat.sub_0_r, seq_S, map_app.
  reflexivity.
Qed.

Lemma retry_until_success_witness :
  snd (call_deepseek_api 200 second_time_lucky (of_string "hi"))
  = Returned (Some (clean_response 200 (of_string "Nova: *waves* Hello!"))) /\
  attempts (fst (call_deepseek_api 200 second_time_lucky (of_string "hi")))
  = map announced (seq 0 2).
Proof.
  apply (retry_until_success 200 second_time_lucky (of_string "hi") 1 []
           (of_string "Nova: *waves* Hello!")).
  - lia.
  - intros [|n] Hn; [reflexivity | lia].
  - reflexivity.
Defined.

(** X14: every call makes at least one and at most three attempts, in
    order, attempt [i] with a request timeout of [15 * i] seconds. *)
Theorem attempts_follow_schedule (max_len : Z) (post : nat -> post_result)
  (user_message : str) :
  exists n,
    1 <= n <= 3 /\
    attempts (fst (call_deepseek_api max_len post user_message))
    = map announced (seq 0 n).
Proof.
  rewrite call_log_attempts.
  destruct (retry_loop_schedule max_len post max_retries max_retries 0)
    as (n & Hn & Hpos & Hatt).
  exists n. unfold max_retries in *. split; [|exact Hatt].
  specialize (Hpos ltac:(lia)). lia.
Qed.

(** X16: an exception of the request other than a read or connect timeout
    is not retried: the attempt that meets it is the last one, and the call
    returns the apology. *)
Theorem transport_error_not_retried (max_len : Z) (post : nat -> post_result)
  (user_message : str) (k : nat) (e : str) :
  k < 3 ->
  (forall n, n < k -> retryable (post n) = true) ->
  post k = Failed e ->
  snd (call_deepseek_api max_len post user_message)
  = Returned (Some apology) /\
  attempts (fst (call_deepseek_api max_len post user_message))
  = map announced (seq 0 (S k)) /\
  last (fst (call_deepseek_api max_len post user_message))
  = Some (Error (ApiCallFailed 3 (TransportError e))).
Proof.
  intros Hk Hretry Hpost.
  destruct (retry_loop_reaches max_len post 3 3 0 k)
    as (l & l' & r & Hlast & Heq & Hatt); try lia.
  { intros n Hn. apply Hretry. lia. }
  assert (Hl' : l' = [Workflow (announced k)] /\
                r = Raised (TransportError e)).
  { destruct (3 - k) as [|j] eqn:E; [lia|].
    simpl in Hlast. rewrite Hpost in Hlast.
    injection Hlast as <- <-. split; reflexivity. }
  destruct Hl' as [-> ->].
  rewrite call_log_attempts. unfold call_deepseek_api, max_retries.
  rewrite Heq. cbn [is_Exception fst snd]. split; [reflexivity|]. split.
  - rewrite attempts_app, Hatt, Nat.sub_0_r, seq_S, map_app. reflexivity.
  - rewrite app_comm_cons, last_snoc. reflexivity.
Qed.

Lemma transport_error_not_retried_witness :
  snd (call_deepseek_api 200 (fun _ => Failed []) []) = Returned (Some apology) /\
  attempts (fst (call_deepseek_api 200 (fun _ => Failed []) []))
  = map announced (seq 0 1) /\
  last (fst (call_deepseek_api 200 (fun _ => Failed []) []))
  = Some (Error (ApiCallFailed 3 (TransportError []))).
Proof.
  apply (transport_error_not_retried 200 (fun _ => Failed []) [] 0 []).
  - lia.
  - intros n Hn. lia.
  - reflexivity.
Defined.

(** X17: the apology never comes unannounced. When the call returns a text,
    either its log ends with the entry of a successful response, or the text
    is the apology and the log ends with the error entry of the failed
    call. *)
Theorem apology_is_reported (max_len : Z) (post : nat -> post_result)
  (user_message s : str) :
  snd (call_deepseek_api max_len post user_message) = Returned (Some s) ->
  last (fst (call_deepseek_api max_len post user_message))
  = Some (Workflow GotResponse) \/
  (s = apology /\
   exists e, last (fst (call_deepseek_api max_len post user_message))
             = Some (Error (ApiCallFailed 3 e))).
Proof.
  unfold call_deepseek_api.
  destruct (retry_loop max_len post max_retries max_retries 0) as [l r] eqn:E.
  destruct r as [[s'|]|e]; simpl.
  - intros _. left.
    pose proof (retry_loop_returned_last _ _ _ _ _ _ _ E) as Hl.
    rewrite last_cons, Hl. reflexivity.
  - discriminate.
  - destruct (is_Exception e); simpl; [|discriminate].
    intros [= <-]. right. split; [reflexivity|]. exists e.
    rewrite app_comm_cons, last_snoc. reflexivity.
Qed.

Lemma apology_is_reported_witness :
  last (fst (call_deepseek_api 40 always_timeout [])) = Some (Workflow GotResponse) \/
  (apology = apology /\
   exists e, last (fst (call_deepseek_api 40 always_timeout []))
             = Some (Error (ApiCallFailed 3 e))).
Proof.
  apply (apology_is_reported 40 always_timeout [] apology). reflexivity.
Defined.

(** X18: the sanitizer bounds what the call returns. With a maximum length
    that is not negative, a returned text is at most as long as the maximum,
    or it is the apology, 112 code points long. *)
Theorem returned_text_is_bounded (max_len : Z) (post : nat -> post_result)
  (user_message s : str) :
  (0 <= max_len)%Z ->
  snd (call_deepseek_api max_len post user_message) = Returned (Some s) ->
  (Z.of_nat (length s) <= Z.max max_len 112)%Z.
Proof.
  intros Hmax. unfold call_deepseek_api.
  destruct (retry_loop max_len post max_retries max_retries 0) as [l r] eqn:E.
  destruct r as [[s'|]|e]; simpl.
  - intros [= <-].
    destruct (retry_loop_returned _ _ _ _ _ _ _ E) as (n & text & c & _ & _ & ->).
    destruct (cleaned_length _ _ (clean_response_cleaned max_len c))
      as [-> | Hle]; [simpl|]; lia.
  - discriminate.
  - destruct (is_Exception e); simpl; [|discriminate].
    intros [= <-]. vm_compute (length apology). lia.
Qed.

Lemma returned_text_is_bounded_witness :
  (Z.of_nat (length apology) <= Z.max 40 112)%Z.
Proof.
  apply (returned_text_is_bounded 40 always_timeout [] apology);
    [lia | reflexivity].
Defined.



Example backoff_reached :
  slept (fst (call_deepseek_api 40 always_timeout [])) = 3%Z.
Proof. reflexivity. Qed.

(** ** AudioSink *)

Section AudioMore.

Import Audio.

Implicit Types p : player.

Lemma maxsize_step p p' : step p p' -> maxsize p' = maxsize p.
Proof.
  intros [p1 p2 Ht | p1 a]; [destruct Ht; reflexivity|].
  unfold play. destruct (full p1); reflexivity.
Qed.

Lemma not_full_room p :
  (0 < maxsize p)%Z -> full p = false ->
  (Z.of_nat (length (audio_queue p)) < maxsize p)%Z.
Proof.
  unfold full. intros Hpos H. apply andb_false_iff in H as [H | H].
  - apply Z.ltb_ge in H. lia.
  - apply Z.leb_gt in H. exact H.
Qed.

Lemma within_bound_step p p' :
  (0 < maxsize p)%Z -> within_bound p -> step p p' -> within_bound p'.
Proof.
  unfold within_bound. intros Hpos Hb Hstep.
  destruct Hstep as [p1 p2 Ht | p1 a].
  - destruct Ht as [x | x | x a q Hc Hq | x q Hc Hq | x | x a | x
                   | x Hs Hf | x]; simpl; try exact Hb.
    + rewrite Hq in Hb. simpl in Hb. lia.
    + rewrite Hq in Hb. simpl in Hb. lia.
    + pose proof (not_full_room x Hpos Hf). rewrite length_app. simpl. lia.
  - unfold play. destruct (full p1) eqn:Hf; [exact Hb|].
    pose proof (not_full_room p1 Hpos Hf). simpl. rewrite length_app.
    simpl. lia.
Qed.

Lemma flags_ok_step p p' : flags_ok p -> step p p' -> flags_ok p'.
Proof.
  intros (Hs & He & Hf) Hstep. destruct Hstep as [p1 p2 Ht | p1 a].
  - destruct Ht as [x Hc Hn | x Hc Hy | x a q Hc Hq | x q Hc Hq | x Hc Hq
                   | x a Hc | x Hst | x Hst Hfull | x Hst];
      unfold flags_ok; simpl.
    + split; [|split; [discriminate | exact Hf]].
      rewrite Hs, Hc. split; intros [a H]; discriminate H.
    + split; [|split; [intros _; exact Hy | exact Hf]].
      rewrite Hs, Hc. split; intros [a H]; discriminate H.
    + split; [|split; [discriminate | exact Hf]].
      split; [intros _; eexists; reflexivity | reflexivity].
    + split; [|split; [discriminate | exact Hf]].
      rewrite Hs, Hc. split; intros [a H]; discriminate H.
    + split; [|split; [discriminate | exact Hf]].
      rewrite Hs, Hc. split; intros [a H]; discriminate H.
    + split; [|split; [discriminate | exact Hf]].
      split; [discriminate | intros [b H]; discriminate H].
    + split; [exact Hs|]. split; [reflexivity|].
      split; [discriminate | reflexivity].
    + split; [exact Hs|]. split; [exact He|].
      rewrite Hf, Hst. split; [discriminate | intros _; discriminate].
    + split; [exact Hs|]. split; [exact He|].
      rewrite Hf, Hst. split; [discriminate | intros _; discriminate].
  - unfold play. destruct (full p1); [repeat split; tauto|].
    unfold flags_ok. simpl. repeat split; tauto.
Qed.

End AudioMore.

(** X19: the queue of a player built with a positive bound never holds more
    than that many items, whatever [play], [stop] and the audio thread
    do. *)
Theorem audio_queue_within_bound (max_queue_size : Z) (p : Audio.player) :
  (0 < max_queue_size)%Z ->
  rtc Audio.step (Audio.new_player max_queue_size) p ->
  (Z.of_nat (length (Audio.audio_queue p)) <= max_queue_size)%Z.
Proof.
  intros Hpos Hreach.
  assert (H : Audio.maxsize p = max_queue_size /\ within_bound p).
  { revert p Hreach. apply rtc_ind_r.
    - split; [reflexivity|]. unfold within_bound. simpl. lia.
    - intros p1 p2 _ Hstep [Hm Hb]. split.
      + rewrite (maxsize_step _ _ Hstep). exact Hm.
      + apply (within_bound_step p1 p2); [lia | exact Hb | exact Hstep]. }
  destruct H as [Hm Hb]. unfold within_bound in Hb. lia.
Qed.

Lemma audio_queue_within_bound_witness :
  (Z.of_nat (length (Audio.audio_queue StopRun.deadlocked)) <= 10)%Z.
Proof.
  apply (audio_queue_within_bound 10 StopRun.deadlocked).
  - lia.
  - exact StopFacts.reach_deadlocked.
Defined.

(** X20: in every state of a player, [is_speaking] is true exactly while the
    audio thread plays a buffer, the thread has left its loop only if
    [should_stop] is set, and [should_stop] is set exactly when [stop] has
    been called. *)
Theorem audio_flags_track_threads (max_queue_size : Z) (p : Audio.player) :
  rtc Audio.step (Audio.new_player max_queue_size) p ->
  (Audio.is_speaking p = true <-> exists a, Audio.consumer p = Audio.Playing a) /\
  (Audio.consumer p = Audio.Exited -> Audio.should_stop p = true) /\
  (Audio.should_stop p = true <-> Audio.stopper p <> Audio.NotCalled).
Proof.
  intros Hreach. change (flags_ok p). revert p Hreach. apply rtc_ind_r.
  - unfold flags_ok. simpl. repeat split; try discriminate.
    + intros [a H]. discriminate H.
    + intros H. contradiction H. reflexivity.
  - intros p1 p2 _ Hstep IH. exact (flags_ok_step p1 p2 IH Hstep).
Qed.

Lemma audio_flags_track_threads_witness :
  (Audio.is_speaking StopRun.deadlocked = true <->
   exists a, Audio.consumer StopRun.deadlocked = Audio.Playing a) /\
  (Audio.consumer StopRun.deadlocked = Audio.Exited ->
   Audio.should_stop StopRun.deadlocked = true) /\
  (Audio.should_stop StopRun.deadlocked = true <->
   Audio.stopper StopRun.deadlocked <> Audio.NotCalled).
Proof.
  apply (audio_flags_track_threads 10 StopRun.deadlocked).
  exact StopFacts.reach_deadlocked.
Defined.

(** ** Orchestrator *)

Section PipelineMore.

Import Audio Pipeline.

Implicit Types (w : vtuber) (t : task).

Lemma moved_lookup (ts : list task) i t to :
  ts !! i = Some t ->
  <[i := {| author := author t; message := message t; at_pc := to |}]> ts !! i
  = Some {| author := author t; message := message t; at_pc := to |}.
Proof.
  intros H. apply list_lookup_insert_eq. eapply lookup_lt_Some, H.
Qed.

Lemma lock_owned_moved w w' i t to :
  tasks w !! i = Some t ->
  tasks w' = <[i := {| author := author t; message := message t;
                       at_pc := to |}]> (tasks w) ->
  inside {| author := author t; message := message t; at_pc := to |} = true ->
  lock_owned w'.
Proof.
  intros Hi Ht Hin _. exists i. eexists. rewrite Ht.
  split; [apply moved_lookup, Hi | exact Hin].
Qed.

Lemma lock_owned_step w w' : lock_owned w -> step w w' -> lock_owned w'.
Proof.
  intros Hown Hstep.
  destruct Hstep as [w dt Hdt | w a m | w i t Hi Hpc Hfree
                    | w i t u Hi Hpc Hu | w i t post wr Hi Hpc
                    | w i t r tts Hi Hpc | w p' Hp].
  - exact Hown.
  - intros Hl. destruct (Hown Hl) as (j & tj & Hj & Hin).
    exists j, tj. split; [|exact Hin]. simpl.
    apply lookup_app_l_Some, Hj.
  - unfold enter. destruct (Qltb _ _);
      eapply (lock_owned_moved _ _ i t); simpl; eauto.
  - eapply (lock_owned_moved _ _ i t); simpl; eauto.
  - unfold generated.
    destruct (call_deepseek_api _ _ _) as [l [[[|c s]|]|e]];
      try (intros Hl; discriminate Hl).
    eapply (lock_owned_moved _ _ i t); try (destruct wr; reflexivity).
    destruct wr; simpl; exact Hi.
  - unfold synthesized. destruct tts as [[a|]|e]; intros Hl; discriminate Hl.
  - exact Hown.
Qed.


Lemma player_bound_step w w' :
  (0 < maxsize (audio_player w))%Z -> within_bound (audio_player w) ->
  step w w' ->
  maxsize (audio_player w') = maxsize (audio_player w) /\
  within_bound (audio_player w').
Proof.
  intros Hpos Hb Hstep.
  destruct Hstep as [w dt Hdt | w a m | w i t Hi Hpc Hfree
                    | w i t u Hi Hpc Hu | w i t post wr Hi Hpc
                    | w i t r tts Hi Hpc | w p' Hp];
    try (split; [reflexivity | exact Hb]).
  - unfold enter. destruct (Qltb _ _); split; try reflexivity; exact Hb.
  - unfold generated.
    destruct (call_deepseek_api _ _ _) as [l [[[|c s]|]|e]];
      try (split; [reflexivity | exact Hb]).
    destruct wr; split; try reflexivity; exact Hb.
  - unfold synthesized. destruct tts as [[a|]|e];
      try (split; [reflexivity | exact Hb]).
    simpl. split.
    + apply maxsize_step, Audio.step_play.
    + apply (within_bound_step (audio_player w));
        [exact Hpos | exact Hb | apply Audio.step_play].
  - simpl. split.
    + apply maxsize_step, Audio.step_thread, Hp.
    + apply (within_bound_step (audio_player w));
        [exact Hpos | exact Hb | apply Audio.step_thread, Hp].
Qed.

End PipelineMore.

(** X21: at most one task is between taking and releasing the processing
    lock, be it asleep at the gate, in the generation call or in speech
    synthesis: while one task is there, no other task is. *)
Theorem one_task_inside_lock (w0 w : Pipeline.vtuber) (i j : nat)
  (ti tj : Pipeline.task) :
  fresh w0 -> Pipeline.reachable w0 w ->
  Pipeline.tasks w !! i = Some ti -> Pipeline.inside ti = true ->
  Pipeline.tasks w !! j = Some tj -> j <> i ->
  Pipeline.inside tj = false.
Proof.
  intros Hfresh Hreach Hi Hiin Hj Hne.
  pose proof (lock_inv_reachable _ _ Hfresh Hreach) as Hinv.
  destruct (Pipeline.inside tj) eqn:Hjin; [|reflexivity].
  destruct (Hinv i ti Hi Hiin) as [_ H1].
  destruct (Hinv j tj Hj Hjin) as [_ H2]. congruence.
Qed.

Lemma one_task_inside_lock_witness :
  Pipeline.inside Runs.bob = false.
Proof.
  apply (one_task_inside_lock Runs.two_in_flight Runs.alice_generating 0 1
           (Runs.at_ Pipeline.Generating Runs.alice) Runs.bob).
  - exact RunFacts.fresh_two_in_flight.
  - exact RunFacts.reach_alice_generating.
  - reflexivity.
  - reflexivity.
  - reflexivity.
  - lia.
Defined.

(** X22: the lock is never left behind. It is held exactly when some task
    is between taking and releasing it: a task that finishes, with a reply,
    with an empty reply or with an exception, has released it. *)
Theorem lock_held_iff_task_inside (w0 w : Pipeline.vtuber) :
  fresh w0 -> Pipeline.reachable w0 w ->
  (Pipeline.processing_lock w = true <->
   exists i t, Pipeline.tasks w !! i = Some t /\ Pipeline.inside t = true).
Proof.
  intros Hfresh Hreach. split.
  - revert w Hreach. apply (rtc_ind_r lock_owned).
    + intros Hl. destruct Hfresh as (_ & Hfree & _). congruence.
    + intros w1 w2 _ Hstep IH. exact (lock_owned_step w1 w2 IH Hstep).
  - intros (i & t & Hi & Hin).
    destruct (lock_inv_reachable _ _ Hfresh Hreach i t Hi Hin) as [Hl _].
    exact Hl.
Qed.

Lemma lock_held_iff_task_inside_witness :
  Pipeline.processing_lock Runs.alice_finished = true <->
  exists i t, Pipeline.tasks Runs.alice_finished !! i = Some t /\
              Pipeline.inside t = true.
Proof.
  apply (lock_held_iff_task_inside Runs.two_in_flight Runs.alice_finished).
  - exact RunFacts.fresh_two_in_flight.
  - exact RunFacts.reach_alice_finished.
Defined.



(** X24: the orchestrator never overfills the audio queue. Started with a
    new player, whatever the tasks, the speech engine and the audio thread
    do, the queue holds at most the ten buffers of the default bound. *)
Theorem pipeline_audio_queue_bounded (w0 w : Pipeline.vtuber) (n : Z) :
  Pipeline.audio_player w0 = Audio.new_player n -> (0 < n)%Z ->
  Pipeline.reachable w0 w ->
  (Z.of_nat (length (Audio.audio_queue (Pipeline.audio_player w))) <= n)%Z.
Proof.
  intros Hp Hpos Hreach.
  assert (H : Audio.maxsize (Pipeline.audio_player w) = n /\
              within_bound (Pipeline.audio_player w)).
  { revert w Hreach. apply rtc_ind_r.
    - rewrite Hp. split; [reflexivity|]. unfold within_bound. simpl. lia.
    - intros w1 w2 _ Hstep [Hm Hb].
      destruct (player_bound_step w1 w2) as [Hm' Hb'];
        [lia | exact Hb | exact Hstep|].
      split; [rewrite Hm'; exact Hm | exact Hb']. }
  destruct H as [Hm Hb]. unfold within_bound in Hb. lia.
Qed.

Lemma pipeline_audio_queue_bounded_witness :
  (Z.of_nat (length (Audio.audio_queue
                       (Pipeline.audio_player Runs.alice_finished))) <= 10)%Z.
Proof.
  apply (pipeline_audio_queue_bounded Runs.two_in_flight Runs.alice_finished 10).
  - reflexivity.
  - lia.
  - exact RunFacts.reach_alice_finished.
Defined.

(** ** Notifications *)

Section TrackingMore.

Import TrackingSystem.

Variable now : nat -> str.




End TrackingMore.
